(** * MeetGenAI: meeting history store, request validation and status polling

    A shallow embedding of the TypeScript sources of the MeetGenAI front end:

    - [utils/storage.ts]  : [saveUser], [getUser], [clearUser], [hasUser],
                            [getMeetings], [saveMeeting], [generateId]
    - [utils/api.ts]      : [getStatus]
    - [NewMeetingForm]    : [isValidUrl], [isValidEmail], [validateForm], [handleSubmit]
    - [ExistingMeetingForm] : the effect that loads the saved meetings,
                            [validateForm], [handleSubmit], [handleMeetingSelect]
    - [NameEntryModal]    : [handleSubmit], [handleInputChange]
    - [LandingPage]       : the greeting
    - [App]               : [handleJoinMeeting], [handleGetStarted], [handleNameSubmit]
    - [MeetingProcessModal] : the polling effect ([setInterval] / [clearInterval])

    JavaScript strings are modelled by [string] (one character per code
    unit), numbers that hold timestamps by [Z], exceptions by an explicit
    result type, and [localStorage] by a record with one field per key the
    program uses. The store is modelled twice: in [Storage] at the types
    the program declares, and in [RawStorage] with the JSON text of any
    value under each key; [RawStorageFacts] shows that the two agree on
    what the program itself writes. *)

From stdpp Require Import base list strings.
From Stdlib Require Import Ascii ZArith Lia.

Open Scope Z_scope.

(* ===================================================================== *)
(** * Platform primitives                                                 *)
(* ===================================================================== *)

Module Js.

(** ** Exceptions *)

Inductive JsError :=
| SyntaxError                 (* JSON.parse on a text that is not JSON *)
| TypeError                   (* new URL on an invalid URL, property of null *)
| NetworkFailure              (* fetch rejected: no response at all *)
| MkError (message : string). (* throw new Error(message) *)

Inductive Result (A : Type) :=
| Ok (a : A)
| Throw (e : JsError).
Arguments Ok {A} a.
Arguments Throw {A} e.

#[global] Instance result_ret : MRet Result := λ A a, Ok a.
#[global] Instance result_bind : MBind Result := λ A B f m,
  match m with
  | Ok a => f a
  | Throw e => Throw e
  end.

(** [try { body } catch (error) { handler }] *)
Definition try_catch {A} (body : Result A) (handler : JsError → Result A) : Result A :=
  match body with
  | Ok a => Ok a
  | Throw e => handler e
  end.

Definition returns {A} (r : Result A) : Prop := ∃ a, r = Ok a.

(** ** Strings *)

(** White space as [String.prototype.trim] and the regular expression
    class [\s] see it, on code units below 256: TAB, LF, VT, FF, CR,
    SPACE and NO-BREAK SPACE. *)
Definition is_whitespace (c : ascii) : bool :=
  let n := Ascii.N_of_ascii c in
  ((9 <=? n) && (n <=? 13) || (n =? 32) || (n =? 160))%N.

Fixpoint trimStart (s : string) : string :=
  match s with
  | EmptyString => EmptyString
  | String c s' => if is_whitespace c then trimStart s' else s
  end.

Fixpoint string_rev (s : string) (acc : string) : string :=
  match s with
  | EmptyString => acc
  | String c s' => string_rev s' (String c acc)
  end.

Definition trimEnd (s : string) : string :=
  string_rev (trimStart (string_rev s EmptyString)) EmptyString.

Definition trim (s : string) : string := trimEnd (trimStart s).

(** A string is truthy when it is not empty. *)
Definition truthy (s : string) : bool :=
  match s with
  | EmptyString => false
  | String _ _ => true
  end.

(** [s.includes(sub)] *)
Fixpoint includes (s sub : string) : bool :=
  String.prefix sub s ||
  match s with
  | EmptyString => false
  | String _ s' => includes s' sub
  end.

(** [s.substr(start, len)] for non-negative arguments. *)
Definition substr (start len : nat) (s : string) : string :=
  String.substring start len s.

(** ** [Number.prototype.toString(36)] on integers *)

Definition digit36 (d : N) : ascii :=
  if (d <? 10)%N then Ascii.ascii_of_N (48 + d) else Ascii.ascii_of_N (87 + d).

Fixpoint digits36 (fuel : nat) (n : N) (acc : string) : string :=
  match fuel with
  | O => acc
  | S fuel' =>
      let acc' := String (digit36 (n mod 36)%N) acc in
      if (n / 36 =? 0)%N then acc' else digits36 fuel' (n / 36)%N acc'
  end.

Definition toString36 (z : Z) : string :=
  match z with
  | Z0 => "0"
  | Zpos p => digits36 (N.size_nat (Npos p)) (Npos p) ""
  | Zneg p => String "-" (digits36 (N.size_nat (Npos p)) (Npos p) "")
  end.

(** ** Regular expressions

    The fragment the program uses: character classes, concatenation and
    [+]; matching is by derivatives, and [test] is the match of the whole
    string between [^] and [$]. *)

Inductive Regex :=
| Fail                         (* matches nothing *)
| Eps                          (* matches the empty string *)
| Class (p : ascii → bool)     (* one character of a class *)
| Seq (r1 r2 : Regex)
| Alt (r1 r2 : Regex)
| Star (r : Regex).

Definition Plus (r : Regex) : Regex := Seq r (Star r).

Fixpoint nullable (r : Regex) : bool :=
  match r with
  | Fail => false
  | Eps => true
  | Class _ => false
  | Seq r1 r2 => nullable r1 && nullable r2
  | Alt r1 r2 => nullable r1 || nullable r2
  | Star _ => true
  end.

Fixpoint deriv (c : ascii) (r : Regex) : Regex :=
  match r with
  | Fail => Fail
  | Eps => Fail
  | Class p => if p c then Eps else Fail
  | Seq r1 r2 =>
      if nullable r1
      then Alt (Seq (deriv c r1) r2) (deriv c r2)
      else Seq (deriv c r1) r2
  | Alt r1 r2 => Alt (deriv c r1) (deriv c r2)
  | Star r' => Seq (deriv c r') (Star r')
  end.

Fixpoint test_anchored (r : Regex) (s : string) : bool :=
  match s with
  | EmptyString => nullable r
  | String c s' => test_anchored (deriv c r) s'
  end.

(** ** JSON texts

    A string held by [localStorage] is abstracted by what [JSON.parse]
    makes of it: the empty string, a non-empty text that is not JSON, or
    the JSON text of a value. The type of the values is a parameter:
    [Storage] takes the types the program declares ([StoredMeeting[]],
    [UserData]), [RawStorage] takes JSON values of any shape. *)

Inductive Payload (A : Type) :=
| EmptyText
| Malformed
| JsonText (v : A).
Arguments EmptyText {A}.
Arguments Malformed {A}.
Arguments JsonText {A} v.

Definition payload_truthy {A} (p : Payload A) : bool :=
  match p with
  | EmptyText => false
  | Malformed | JsonText _ => true
  end.

Definition JSON_parse {A} (p : Payload A) : Result A :=
  match p with
  | JsonText v => Ok v
  | EmptyText | Malformed => Throw SyntaxError
  end.

Definition JSON_stringify {A} (v : A) : Payload A := JsonText v.

End Js.

(* ===================================================================== *)
(** * utils/storage.ts                                                    *)
(* ===================================================================== *)

Module Storage.
Import Js.

Record StoredMeeting := {
  id : string;
  title : string;
  email : string;
  savedAt : Z;
  userName : option string
}.

Record UserData := {
  name : string;
  userSavedAt : Z   (* the field [savedAt] of [UserData] *)
}.

(** [localStorage], restricted to the two keys of the program. [None] is
    a key that is not set ([getItem] returns [null]). *)
Record LocalStorage := {
  meetgenai_user : option (Payload UserData);
  meetgenai_meetings : option (Payload (list StoredMeeting))
}.

Definition setItem_meetings (ls : LocalStorage) (p : Payload (list StoredMeeting))
  : LocalStorage :=
  {| meetgenai_user := meetgenai_user ls; meetgenai_meetings := Some p |}.

Definition setItem_user (ls : LocalStorage) (p : Payload UserData) : LocalStorage :=
  {| meetgenai_user := Some p; meetgenai_meetings := meetgenai_meetings ls |}.

(** What one call reads from the outside world: [Math.random().toString(36)]
    and the two readings of [Date.now()], the first inside [generateId],
    the second for [savedAt]. *)
Record Env := {
  random_toString36 : string;
  now_generateId : Z;
  now_savedAt : Z
}.

Definition saveUser (ls : LocalStorage) (name : string) (now : Z) : LocalStorage :=
  let userData := {| name := trim name; userSavedAt := now |} in
  setItem_user ls (JSON_stringify userData).

Definition clearUser (ls : LocalStorage) : LocalStorage :=
  {| meetgenai_user := None; meetgenai_meetings := meetgenai_meetings ls |}.

Definition getUser (ls : LocalStorage) : Result (option UserData) :=
  try_catch
    (match meetgenai_user ls with
     | Some stored =>
         if payload_truthy stored then (u ← JSON_parse stored; Ok (Some u))
         else Ok None
     | None => Ok None
     end)
    (λ _, Ok None).

Definition getMeetings (ls : LocalStorage) : Result (list StoredMeeting) :=
  try_catch
    (match meetgenai_meetings ls with
     | Some stored =>
         if payload_truthy stored then JSON_parse stored else Ok []
     | None => Ok []
     end)
    (λ _, Ok []).

Definition generateId (env : Env) : string :=
  substr 2 9 (random_toString36 env) +:+ toString36 (now_generateId env).

Definition same_key (a b : StoredMeeting) : Prop :=
  title a = title b ∧ email a = email b.

Definition saveMeeting (ls : LocalStorage) (title0 email0 : string) (env : Env)
  : Result LocalStorage :=
  meetings ← getMeetings ls;
  user ← getUser ls;
  let newMeeting := {|
    id := generateId env;
    title := trim title0;
    email := trim email0;
    savedAt := now_savedAt env;
    userName := name <$> user
  |} in
  (* Remove duplicate meetings with same title and email *)
  let filteredMeetings := filter (λ meeting, ¬ same_key meeting newMeeting) meetings in
  let filteredMeetings := newMeeting :: filteredMeetings in
  (* Keep only the last 10 meetings *)
  let recentMeetings := take 10 filteredMeetings in
  Ok (setItem_meetings ls (JSON_stringify recentMeetings)).

Definition hasUser (ls : LocalStorage) : Result bool :=
  user ← getUser ls; Ok (bool_decide (is_Some user)).

(** ** Sequences of calls *)

Definition has_key (t e : string) (m : StoredMeeting) : Prop :=
  title m = t ∧ email m = e.

(** One call [saveMeeting(title, email)] and what it reads. *)
Record SaveCall := {
  call_title : string;
  call_email : string;
  call_env : Env
}.

Definition call_pair (c : SaveCall) : string * string := (call_title c, call_email c).

Definition call_key (c : SaveCall) : string * string :=
  (trim (call_title c), trim (call_email c)).

(** The calls of a list, one after the other. *)
Fixpoint saveMeetings (ls : LocalStorage) (calls : list SaveCall) : Result LocalStorage :=
  match calls with
  | [] => Ok ls
  | c :: calls' =>
      ls' ← saveMeeting ls (call_title c) (call_email c) (call_env c);
      saveMeetings ls' calls'
  end.

(** The record a call builds when the stored user is [user]. *)
Definition record_of (user : option UserData) (c : SaveCall) : StoredMeeting := {|
  id := generateId (call_env c);
  title := trim (call_title c);
  email := trim (call_email c);
  savedAt := now_savedAt (call_env c);
  userName := name <$> user
|}.

Definition empty_storage : LocalStorage :=
  {| meetgenai_user := None; meetgenai_meetings := None |}.

(** A reading of the outside world at time [now]. *)
Definition env_at (now : Z) : Env :=
  {| random_toString36 := "0.4fzyo82mvyr"; now_generateId := now; now_savedAt := now |}.

Definition call (t e : string) (now : Z) : SaveCall :=
  {| call_title := t; call_email := e; call_env := env_at now |}.

(** Eleven calls with pairwise different titles. *)
Definition eleven_calls : list SaveCall :=
  [call "M01" "a@b.com" 1001; call "M02" "a@b.com" 1002; call "M03" "a@b.com" 1003;
   call "M04" "a@b.com" 1004; call "M05" "a@b.com" 1005; call "M06" "a@b.com" 1006;
   call "M07" "a@b.com" 1007; call "M08" "a@b.com" 1008; call "M09" "a@b.com" 1009;
   call "M10" "a@b.com" 1010; call "M11" "a@b.com" 1011].

(** Eleven calls with pairwise different titles, three of which differ
    only by the white space around them. *)
Definition eleven_padded_calls : list SaveCall :=
  [call "M01" "a@b.com" 1001; call "M01 " "a@b.com" 1002; call " M01" "a@b.com" 1003;
   call "M04" "a@b.com" 1004; call "M05" "a@b.com" 1005; call "M06" "a@b.com" 1006;
   call "M07" "a@b.com" 1007; call "M08" "a@b.com" 1008; call "M09" "a@b.com" 1009;
   call "M10" "a@b.com" 1010; call "M11" "a@b.com" 1011].

#[global] Instance has_key_dec t e m : Decision (has_key t e m).
Proof. unfold has_key. apply _. Defined.

(** What the store holds under the meetings key, read as a list. *)
Definition stored_list (stored : option (Payload (list StoredMeeting)))
  : list StoredMeeting :=
  match stored with
  | Some (JsonText l) => l
  | Some Malformed | Some EmptyText | None => []
  end.

Definition stored_user (stored : option (Payload UserData)) : option UserData :=
  match stored with
  | Some (JsonText u) => Some u
  | Some Malformed | Some EmptyText | None => None
  end.

(** One step of the history: the new record in front of the records
    with another key, cut at ten. *)
Definition push (new : StoredMeeting) (l : list StoredMeeting) : list StoredMeeting :=
  take 10 (new :: filter (λ m, ¬ same_key m new) l).

End Storage.

(* ===================================================================== *)
(** * The platform's [fetch] and [new URL]                                *)
(* ===================================================================== *)

Module Net.
Import Js.

(** How one [fetch] ends: the promise rejects (no response), or a
    response arrives with its [ok] flag and a body. *)
Inductive FetchOutcome (B : Type) :=
| Rejected
| Response (ok : bool) (body : B).
Arguments Rejected {B}.
Arguments Response {B} ok body.

(** What [await response.json()] gives, as far as the program looks at
    it: the read fails, the JSON value is [null], or it is an object of
    which one string property is read ([None]: the property is missing
    or is not a string). *)
Inductive JsonBody :=
| BodyNotJson
| BodyNull
| BodyObject (prop : option string).

Definition response_json (b : JsonBody) : Result JsonBody :=
  match b with
  | BodyNotJson => Throw SyntaxError
  | BodyNull | BodyObject _ => Ok b
  end.

(** [data.prop] *)
Definition get_prop (b : JsonBody) : Result (option string) :=
  match b with
  | BodyObject p => Ok p
  | BodyNull | BodyNotJson => Throw TypeError
  end.

(** ** [new URL(url)]

    The constructor belongs to the platform, not to the repository. The
    program only observes whether it throws, so the forms below take it
    as a parameter, and what is proved of them holds for every
    constructor. [new_URL] stands in for it where a concrete link has to
    be parsed. It follows the platform on links
    [scheme://host:port/path?query#fragment] whose host is a name of
    ASCII letters, digits, [-] and [.] with a last label that is not a
    number, and whose port is below 65536, and on strings without a
    scheme; it does not decode percent escapes, parse numeric (IPv4) or
    bracketed (IPv6) hosts or bound the port, so it is not to be read as
    the platform's constructor outside those links. *)

Record URL := {
  protocol : string;   (* the scheme, without the colon *)
  hostname : string
}.

Definition is_alpha (c : ascii) : bool :=
  let n := Ascii.N_of_ascii c in
  ((65 <=? n) && (n <=? 90) || (97 <=? n) && (n <=? 122))%N.

Definition is_digit (c : ascii) : bool :=
  let n := Ascii.N_of_ascii c in ((48 <=? n) && (n <=? 57))%N.

Definition is_scheme_char (c : ascii) : bool :=
  is_alpha c || is_digit c || Ascii.eqb c "+" || Ascii.eqb c "-" || Ascii.eqb c ".".

Definition lower (c : ascii) : ascii :=
  let n := Ascii.N_of_ascii c in
  if ((65 <=? n) && (n <=? 90))%N then Ascii.ascii_of_N (n + 32) else c.

Fixpoint map_string (f : ascii → ascii) (s : string) : string :=
  match s with
  | EmptyString => EmptyString
  | String c s' => String (f c) (map_string f s')
  end.

(** Splits [s] at the first character satisfying [stop]. *)
Fixpoint span_until (stop : ascii → bool) (s : string) : string * string :=
  match s with
  | EmptyString => (EmptyString, EmptyString)
  | String c s' =>
      if stop c then (EmptyString, s)
      else let '(a, b) := span_until stop s' in (String c a, b)
  end.

Fixpoint forallb_string (p : ascii → bool) (s : string) : bool :=
  match s with
  | EmptyString => true
  | String c s' => p c && forallb_string p s'
  end.

(** The part of [s] after its last [c], or [s] itself. *)
Definition after_last (c : ascii) (s : string) : string :=
  string_rev (fst (span_until (Ascii.eqb c) (string_rev s EmptyString))) EmptyString.

Definition is_special (scheme : string) : bool :=
  String.eqb scheme "http" || String.eqb scheme "https" || String.eqb scheme "ws"
  || String.eqb scheme "wss" || String.eqb scheme "ftp".

Definition forbidden_host_char (c : ascii) : bool :=
  let n := Ascii.N_of_ascii c in
  ((n <=? 32) || (n =? 35) || (n =? 47) || (n =? 58) || (n =? 60) || (n =? 62)
   || (n =? 63) || (n =? 64) || (n =? 91) || (n =? 92) || (n =? 93) || (n =? 94)
   || (n =? 124) || (n =? 127))%N.

Definition C0_or_space (c : ascii) : bool := (Ascii.N_of_ascii c <=? 32)%N.

Fixpoint strip_start (s : string) : string :=
  match s with
  | EmptyString => EmptyString
  | String c s' => if C0_or_space c then strip_start s' else s
  end.

Definition strip (s : string) : string :=
  string_rev (strip_start (string_rev (strip_start s) EmptyString)) EmptyString.

Definition parse_authority (scheme authority : string) : Result URL :=
  let hostport := after_last "@" authority in
  let '(host, port) := span_until (λ c, Ascii.eqb c ":") hostport in
  let port_ok :=
    match port with
    | EmptyString => true
    | String _ digits => forallb_string is_digit digits
    end in
  if negb port_ok then Throw TypeError
  else if negb (forallb_string (λ c, negb (forbidden_host_char c)) host) then Throw TypeError
  else if is_special scheme && negb (truthy host) then Throw TypeError
  else Ok {| protocol := scheme; hostname := map_string lower host |}.

Definition is_slash (c : ascii) : bool := Ascii.eqb c "/" || Ascii.eqb c "\".

Fixpoint skip_slashes (s : string) : string :=
  match s with
  | EmptyString => EmptyString
  | String c s' => if is_slash c then skip_slashes s' else s
  end.

Definition authority_of (special : bool) (s : string) : string :=
  fst (span_until (λ c, Ascii.eqb c "/" || Ascii.eqb c "?" || Ascii.eqb c "#"
                        || (special && Ascii.eqb c "\")) s).

Definition new_URL (url : string) : Result URL :=
  match strip url with
  | EmptyString => Throw TypeError
  | String c0 _ as input =>
      if negb (is_alpha c0) then Throw TypeError
      else
        let '(scheme0, rest) := span_until (λ c, negb (is_scheme_char c)) input in
        let scheme := map_string lower scheme0 in
        match rest with
        | String ":" rest' =>
            if is_special scheme then
              parse_authority scheme (authority_of true (skip_slashes rest'))
            else
              match rest' with
              | String "/" (String "/" rest'') =>
                  parse_authority scheme (authority_of false rest'')
              | _ => Ok {| protocol := scheme; hostname := EmptyString |}
              end
        | _ => Throw TypeError
        end
  end.

End Net.

(* ===================================================================== *)
(** * utils/api.ts                                                        *)
(* ===================================================================== *)

Module Api.
Import Js Net.

(** [getStatus], given how its [fetch] of [/api/get_status] ends. The
    property read from the body is [status]. *)
Definition getStatus (r : FetchOutcome JsonBody) : Result (option string) :=
  match r with
  | Rejected => Throw NetworkFailure
  | Response ok body =>
      if negb ok then Throw (MkError "Failed to get status")
      else data ← response_json body; get_prop data
  end.

End Api.

(* ===================================================================== *)
(** * components/NewMeetingForm.tsx                                       *)
(* ===================================================================== *)

Module NewMeetingForm.
Import Js Net.

Record MeetingData := {
  title : string;
  link : string;
  email : string;
  password : string
}.

(** [Partial<MeetingData>]: the message of each field in error. *)
Record Errors := {
  title_error : option string;
  link_error : option string;
  email_error : option string;
  password_error : option string
}.

Definition no_errors : Errors :=
  {| title_error := None; link_error := None; email_error := None; password_error := None |}.

(** [Object.keys(newErrors).length] *)
Definition keys_length (e : Errors) : nat :=
  length (omap (λ x : option string, x)
            [title_error e; link_error e; email_error e; password_error e]).

(** What a submission does, in order. *)
Inductive Effect :=
| Fetch (url : string) (body : MeetingData)   (* POST, body JSON.stringify(formData) *)
| Alert (message : string)
| AlertFailedToJoin (message : option string)
    (* alert(`Failed to join: ${err.message}`); [None]: [err.message] is
       missing or is not a string, and the text shows what it converts to *)
| OnJoinMeeting (data : MeetingData).

(** The regular expression [/^[^\s@]+@[^\s@]+\.[^\s@]+$/]. *)
Definition not_space_at : Regex :=
  Class (λ c, negb (is_whitespace c || Ascii.eqb c "@")).

Definition email_regex : Regex :=
  Seq (Plus not_space_at)
    (Seq (Class (Ascii.eqb "@"))
       (Seq (Plus not_space_at)
          (Seq (Class (Ascii.eqb ".")) (Plus not_space_at)))).

Definition isValidEmail (email : string) : bool := test_anchored email_regex email.

Section WithURL.
(** The platform's URL constructor. *)
Variable URL_ctor : string → Result URL.

Definition isValidUrl (url : string) : bool :=
  match
    try_catch
      (_ ← URL_ctor url;
       Ok (includes url "meet.google.com" || includes url "zoom.us"
           || includes url "teams.microsoft.com"))
      (λ _, Ok false)
  with
  | Ok b => b
  | Throw _ => false
  end.

(** [validateForm]: the errors it stores with [setErrors] and its
    return value. *)
Definition validateForm (formData : MeetingData) : Errors * bool :=
  let newErrors := {|
    title_error :=
      if negb (truthy (trim (title formData))) then Some "Meeting title is required"
      else None;
    link_error :=
      if negb (truthy (trim (link formData))) then Some "Meeting link is required"
      else if negb (isValidUrl (link formData)) then Some "Please enter a valid meeting URL"
      else None;
    email_error :=
      if negb (truthy (trim (email formData))) then Some "Email address is required"
      else if negb (isValidEmail (email formData))
           then Some "Please enter a valid email address"
      else None;
    password_error :=
      if negb (truthy (trim (password formData))) then Some "Password is required"
      else None
  |} in
  (newErrors, Nat.eqb (keys_length newErrors) 0).

(** [handleSubmit], given how the [fetch] of the join endpoint ends. It
    returns the errors shown by the form and the effects performed. *)
Definition handleSubmit (formData : MeetingData) (net : FetchOutcome JsonBody)
  : Errors * list Effect :=
  let '(errors, valid) := validateForm formData in
  if negb valid then (errors, [])
  else
    let after_fetch : Result (list Effect) :=
      match net with
      | Rejected => Throw NetworkFailure
      | Response ok body =>
          if negb ok then
            err ← response_json body;
            message ← get_prop err;
            Ok [AlertFailedToJoin message]
          else
            _ ← response_json body;
            Ok [OnJoinMeeting formData]
      end in
    (errors,
     Fetch "http://localhost:5000/api/join_meeting" formData ::
     match after_fetch with
     | Ok effects => effects
     | Throw _ => [Alert "Network error, please try again."]
     end).

End WithURL.

(** The hosts the specification allows. *)
Definition allowed_hosts : list string :=
  ["meet.google.com"; "zoom.us"; "teams.microsoft.com"].

Definition is_fetch (e : Effect) : bool :=
  match e with
  | Fetch _ _ => true
  | _ => false
  end.

(** A form whose link is a URL of another host that mentions [zoom.us]
    in its path. *)
Definition foreign_host_form : MeetingData := {|
  title := "Standup";
  link := "https://example.com/zoom.us";
  email := "a@b.com";
  password := "hunter2"
|}.

(** A form whose link is not a URL. *)
Definition no_scheme_form : MeetingData := {|
  title := "Standup";
  link := "zoom.us/j/123";
  email := "a@b.com";
  password := "hunter2"
|}.

End NewMeetingForm.

(* ===================================================================== *)
(** * components/ExistingMeetingForm.tsx                                  *)
(* ===================================================================== *)

Module ExistingMeetingForm.
Import Js Storage.

(** The effect run when the form mounts:
    [JSON.parse(localStorage.getItem('meetgenai_meetings') || '[]')].
    Nothing catches what [JSON.parse] throws. *)
Definition loadSavedMeetings (ls : LocalStorage) : Result (list StoredMeeting) :=
  let text :=
    match meetgenai_meetings ls with
    | Some stored => if payload_truthy stored then stored else JsonText []
    | None => JsonText []
    end in
  JSON_parse text.

End ExistingMeetingForm.

(* ===================================================================== *)
(** * App.tsx                                                             *)
(* ===================================================================== *)

Module App.
Import Js Storage Net.

Record AppState := {
  localStorage : LocalStorage;
  currentMeetingTitle : string;
  showProcessModal : bool
}.

Inductive Effect :=
| SetItemMeetings (stored : option (Payload (list StoredMeeting)))
    (* localStorage.setItem('meetgenai_meetings', ...) inside saveMeeting *)
| Fetch (url : string) (body : NewMeetingForm.MeetingData)
| ConsoleLog
| ConsoleError.

(** [handleJoinMeeting], given what [saveMeeting] reads from the outside
    and how the [fetch] of [/api/join_meeting] ends. *)
Definition handleJoinMeeting (st : AppState) (meetingData : NewMeetingForm.MeetingData)
    (env : Env) (net : FetchOutcome JsonBody) : Result (AppState * list Effect) :=
  (* Save meeting to localStorage *)
  ls ← saveMeeting (localStorage st)
         (NewMeetingForm.title meetingData) (NewMeetingForm.email meetingData) env;
  let st' := {|
    localStorage := ls;
    currentMeetingTitle := NewMeetingForm.title meetingData;
    showProcessModal := true
  |} in
  let joined : Result unit :=
    match net with
    | Rejected => Throw NetworkFailure
    | Response ok body =>
        if negb ok then Throw (MkError "Failed to join meeting")
        else _ ← response_json body; Ok ()
    end in
  Ok (st',
      [SetItemMeetings (meetgenai_meetings ls); Fetch "/api/join_meeting" meetingData] ++
      match joined with
      | Ok _ => [ConsoleLog]
      | Throw _ => [ConsoleError]
      end).

Definition initial_state : AppState :=
  {| localStorage := empty_storage; currentMeetingTitle := ""; showProcessModal := false |}.

(** A form a user can submit: the title has a leading space. *)
Definition padded_meeting : NewMeetingForm.MeetingData := {|
  NewMeetingForm.title := " Standup";
  NewMeetingForm.link := "https://meet.google.com/abc-defg-hij";
  NewMeetingForm.email := "a@b.com";
  NewMeetingForm.password := "hunter2"
|}.

Definition with_password (d : NewMeetingForm.MeetingData) (pw : string)
  : NewMeetingForm.MeetingData := {|
  NewMeetingForm.title := NewMeetingForm.title d;
  NewMeetingForm.link := NewMeetingForm.link d;
  NewMeetingForm.email := NewMeetingForm.email d;
  NewMeetingForm.password := pw
|}.

End App.

(* ===================================================================== *)
(** * components/MeetingProcessModal.tsx                                  *)
(* ===================================================================== *)

Module MeetingProcessModal.
Import Js Net.

Inductive ProcessStep := joining | joined | ended | generating | completed.

#[global] Instance ProcessStep_eq_dec : EqDecision ProcessStep.
Proof. solve_decision. Defined.

(** The delay passed to [setInterval], in milliseconds. *)
Definition POLL_INTERVAL_MS : Z := 10000.

(** What the component does that can be seen from outside, in order. *)
Inductive Effect :=
| GetStatus                         (* a request to /api/get_status is issued *)
| SetCurrentStep (step : ProcessStep)
| SetProgress (value : Z)
| OnComplete (summary : string)
| ConsoleError.

(** The component, the timer of its effect and the requests it is
    waiting for. An interval is a handle and the time of its next
    callback; a request in flight remembers the handle its callback
    closed over. *)
Record State := {
  isOpen : bool;
  currentStep : ProcessStep;
  progress : Z;
  clock : Z;
  fresh : nat;
  interval : option (nat * Z);
  inflight : list nat;
  log : list Effect
}.

(** The first render, with [isOpen] false as [App] starts it. *)
Definition mount (now : Z) : State := {|
  isOpen := false;
  currentStep := joining;
  progress := 0;
  clock := now;
  fresh := 0;
  interval := None;
  inflight := [];
  log := []
|}.

Definition emit (es : list Effect) (s : State) : State :=
  {| isOpen := isOpen s; currentStep := currentStep s; progress := progress s;
     clock := clock s; fresh := fresh s; interval := interval s;
     inflight := inflight s; log := log s ++ es |}.

Definition setCurrentStep (step : ProcessStep) (s : State) : State :=
  emit [SetCurrentStep step]
    {| isOpen := isOpen s; currentStep := step; progress := progress s;
       clock := clock s; fresh := fresh s; interval := interval s;
       inflight := inflight s; log := log s |}.

Definition setProgress (value : Z) (s : State) : State :=
  emit [SetProgress value]
    {| isOpen := isOpen s; currentStep := currentStep s; progress := value;
       clock := clock s; fresh := fresh s; interval := interval s;
       inflight := inflight s; log := log s |}.

Definition with_interval (i : option (nat * Z)) (s : State) : State :=
  {| isOpen := isOpen s; currentStep := currentStep s; progress := progress s;
     clock := clock s; fresh := fresh s; interval := i;
     inflight := inflight s; log := log s |}.

Definition with_inflight (l : list nat) (s : State) : State :=
  {| isOpen := isOpen s; currentStep := currentStep s; progress := progress s;
     clock := clock s; fresh := fresh s; interval := interval s;
     inflight := l; log := log s |}.

(** [clearInterval(handle)]: stops the interval with that handle, if it
    is the one running. *)
Definition clearInterval (handle : nat) (s : State) : State :=
  match interval s with
  | Some (h, _) => if Nat.eqb h handle then with_interval None s else s
  | None => s
  end.

(** [setInterval(callback, 10000)] *)
Definition setInterval (s : State) : State :=
  {| isOpen := isOpen s; currentStep := currentStep s; progress := progress s;
     clock := clock s; fresh := S (fresh s);
     interval := Some (fresh s, clock s + POLL_INTERVAL_MS);
     inflight := inflight s; log := log s |}.

Definition status_is (status : option string) (literal : string) : bool :=
  match status with
  | Some s => String.eqb s literal
  | None => false
  end.

(** The callback after [await getStatus()] returned [status]: the
    [switch], then [setCurrentStep(nextStep)] and
    [setProgress(progressValue)]. [handle] is the [interval] of the
    closure. *)
Definition on_status (handle : nat) (status : option string) (s : State) : State :=
  if status_is status "not started" then
    setProgress 25 (setCurrentStep joined s)
  else if status_is status "Transcription" || status_is status "Preprocessing" then
    setProgress 50 (setCurrentStep ended s)
  else if status_is status "summary generation" then
    setProgress 75 (setCurrentStep generating s)
  else if status_is status "completed" then
    setProgress 100 (setCurrentStep completed
      (emit [OnComplete "Summary completed!"] (clearInterval handle s)))
  else
    setProgress 10 (setCurrentStep joining s).

(** The rest of the callback once the request has settled. *)
Definition on_settled (handle : nat) (r : FetchOutcome JsonBody) (s : State) : State :=
  match Api.getStatus r with
  | Ok status => on_status handle status s
  | Throw _ => emit [ConsoleError] s
  end.

(** The [useEffect] with dependencies [isOpen, onComplete]: the cleanup
    of the previous run, then the effect itself. *)
Definition run_effect (open : bool) (s : State) : State :=
  let s1 := with_interval None s in
  let s2 := {| isOpen := open; currentStep := currentStep s1; progress := progress s1;
               clock := clock s1; fresh := fresh s1; interval := interval s1;
               inflight := inflight s1; log := log s1 |} in
  if open then setInterval s2 else s2.

Inductive Event :=
| Props (open : bool)      (* a render in which [isOpen] or [onComplete] changed *)
| Elapse (dt : Z)          (* time passes; no callback is due before it ends *)
| TimerFire                (* the interval callback runs and calls getStatus *)
| Settle (k : nat) (r : FetchOutcome JsonBody).
                           (* the k-th request in flight settles *)

(** One event; [None] when the event cannot happen in that state. *)
Definition step (s : State) (ev : Event) : option State :=
  match ev with
  | Props open => Some (run_effect open s)
  | Elapse dt =>
      let fits := match interval s with
                  | Some (_, due) => clock s + dt <=? due
                  | None => true
                  end in
      if (0 <=? dt) && fits then
        Some {| isOpen := isOpen s; currentStep := currentStep s; progress := progress s;
                clock := clock s + dt; fresh := fresh s; interval := interval s;
                inflight := inflight s; log := log s |}
      else None
  | TimerFire =>
      match interval s with
      | Some (h, due) =>
          if clock s =? due then
            Some (emit [GetStatus]
                    (with_inflight (inflight s ++ [h])
                       (with_interval (Some (h, due + POLL_INTERVAL_MS)) s)))
          else None
      | None => None
      end
  | Settle k r =>
      match inflight s !! k with
      | Some h => Some (on_settled h r (with_inflight (delete k (inflight s)) s))
      | None => None
      end
  end.

Fixpoint run (s : State) (evs : list Event) : option State :=
  match evs with
  | [] => Some s
  | ev :: evs' =>
      match step s ev with
      | Some s' => run s' evs'
      | None => None
      end
  end.

(** ** Observations on a run *)

(** Events other than a render by the parent: time, ticks and responses. *)
Definition is_polling (ev : Event) : bool :=
  match ev with
  | Props _ => false
  | Elapse _ | TimerFire | Settle _ _ => true
  end.

(** The remote status values received, in the order of arrival. *)
Fixpoint statuses (evs : list Event) : list (option string) :=
  match evs with
  | [] => []
  | Settle _ r :: evs' =>
      match Api.getStatus r with
      | Ok status => status :: statuses evs'
      | Throw _ => statuses evs'
      end
  | _ :: evs' => statuses evs'
  end.

Definition steps_set (l : list Effect) : list ProcessStep :=
  omap (λ e, match e with SetCurrentStep st => Some st | _ => None end) l.

Definition completions (l : list Effect) : list string :=
  omap (λ e, match e with OnComplete summary => Some summary | _ => None end) l.

Definition polls_issued (l : list Effect) : nat :=
  length (omap (λ e, match e with GetStatus => Some () | _ => None end) l).

(** The stages the component has been in since it was mounted in state
    [s0]: the stage of [useState] and the stages set afterwards. *)
Definition stage_history (s0 s : State) : list ProcessStep :=
  currentStep s0 :: steps_set (log s).

(** A response with status [status]. *)
Definition ok_status (status : string) : FetchOutcome JsonBody :=
  Response true (BodyObject (Some status)).

(** [nextStep] as the [switch] leaves it. *)
Definition nextStep (status : option string) : ProcessStep :=
  if status_is status "not started" then joined
  else if status_is status "Transcription" || status_is status "Preprocessing" then ended
  else if status_is status "summary generation" then generating
  else if status_is status "completed" then completed
  else joining.

(** The calls of [onComplete] a status leads to. *)
Definition completion_of (status : option string) : list string :=
  if status_is status "completed" then ["Summary completed!"] else [].

(** The stage after the statuses of a list have been received. *)
Definition final_step (init : ProcessStep) (sts : list (option string)) : ProcessStep :=
  foldl (λ _ status, nextStep status) init sts.

(** A request in flight was issued by the interval that is running. *)
Definition own_requests (s : State) : Prop :=
  ∀ h due, interval s = Some (h, due) → Forall (λ x, x = h) (inflight s).

(** One poll every ten seconds, each answered at once. *)
Definition four_polls : list Event :=
  [Elapse 10000; TimerFire; Settle 0 (ok_status "not started");
   Elapse 10000; TimerFire; Settle 0 (ok_status "Transcription");
   Elapse 10000; TimerFire; Settle 0 (ok_status "summary generation");
   Elapse 10000; TimerFire; Settle 0 (ok_status "completed")].

(** The modal is opened, one poll says the agent joined, the next poll
    is issued. *)
Definition joined_and_polling : list Event :=
  [Props true; Elapse 10000; TimerFire; Settle 0 (ok_status "not started");
   Elapse 10000; TimerFire].

(** The stages the component has been in since it was in state [s0]:
    the stage it had then and the stages set afterwards. *)
Definition stages_since (s0 s : State) : list ProcessStep :=
  currentStep s0 :: drop (length (steps_set (log s0))) (steps_set (log s)).

(** Three polls, each answered at once; the fourth request is issued,
    the parent renders with a new [onComplete] while it is in flight,
    and its response says [completed]. *)
Definition render_before_last_response : list Event :=
  [Elapse 10000; TimerFire; Settle 0 (ok_status "not started");
   Elapse 10000; TimerFire; Settle 0 (ok_status "Transcription");
   Elapse 10000; TimerFire; Settle 0 (ok_status "summary generation");
   Elapse 10000; TimerFire; Props true; Settle 0 (ok_status "completed")].

End MeetingProcessModal.

(* ===================================================================== *)
(** * Vocabulary on strings and regular expressions                       *)
(* ===================================================================== *)

Module Text.
Import Js Net.

(** The string read backwards. *)
Definition srev (s : string) : string := string_rev s EmptyString.

(** A string that [trim] leaves as it is. *)
Definition trimmed (s : string) : Prop := trim s = s.

Definition no_whitespace (s : string) : Prop :=
  forallb_string (λ c, negb (is_whitespace c)) s = true.

(** The strings a regular expression denotes. *)
Inductive matches : Regex → string → Prop :=
| MEps : matches Eps EmptyString
| MClass p c : p c = true → matches (Class p) (String c EmptyString)
| MSeq r1 r2 s1 s2 : matches r1 s1 → matches r2 s2 → matches (Seq r1 r2) (s1 +:+ s2)
| MAltL r1 r2 s : matches r1 s → matches (Alt r1 r2) s
| MAltR r1 r2 s : matches r2 s → matches (Alt r1 r2) s
| MStarNil r : matches (Star r) EmptyString
| MStarCons r s1 s2 : matches r s1 → matches (Star r) s2 → matches (Star r) (s1 +:+ s2).

(** A part of an email address: not empty, no white space, no [@]. *)
Definition email_part (s : string) : Prop :=
  s ≠ EmptyString ∧
  forallb_string (λ c, negb (is_whitespace c || Ascii.eqb c "@")) s = true.

End Text.

(* ===================================================================== *)
(** * The history as the store keeps it                                   *)
(* ===================================================================== *)

Module History.
Import Js Storage Text.

Definition key_of (m : StoredMeeting) : string * string := (title m, email m).

(** A history as [saveMeeting] builds it from nothing: one record per
    key, at most ten records, titles and emails trimmed. *)
Definition tidy (l : list StoredMeeting) : Prop :=
  NoDup (key_of <$> l) ∧
  (length l ≤ 10)%nat ∧
  Forall (λ m, trimmed (title m) ∧ trimmed (email m)) l.

(** The history the store holds, as [getMeetings] reads it. *)
Definition history (ls : LocalStorage) : list StoredMeeting :=
  stored_list (meetgenai_meetings ls).

(** A store with two saved meetings and no user. *)
Definition two_meetings : LocalStorage := {|
  meetgenai_user := None;
  meetgenai_meetings :=
    Some (JsonText [record_of None (call "M02" "a@b.com" 1002);
                    record_of None (call "M01" "a@b.com" 1001)])
|}.

End History.

(* ===================================================================== *)
(** * components/NameEntryModal.tsx                                       *)
(* ===================================================================== *)

Module NameEntryModal.
Import Js.

Record State := {
  name : string;
  isFocused : bool;
  error : string
}.

Definition initial : State := {| name := ""; isFocused := false; error := "" |}.

Definition setError (message : string) (st : State) : State :=
  {| name := name st; isFocused := isFocused st; error := message |}.

(** [handleSubmit]: the state it leaves and the argument of [onSubmit]
    when it calls it. *)
Definition handleSubmit (st : State) : State * option string :=
  if negb (truthy (trim (name st))) then
    (setError "Please enter your full name" st, None)
  else if (String.length (trim (name st)) <? 2)%nat then
    (setError "Name must be at least 2 characters long" st, None)
  else
    (st, Some (trim (name st))).

Definition handleInputChange (st : State) (value : string) : State :=
  let st' := {| name := value; isFocused := isFocused st; error := error st |} in
  if truthy (error st) then setError "" st' else st'.

End NameEntryModal.

(* ===================================================================== *)
(** * components/LandingPage.tsx                                          *)
(* ===================================================================== *)

Module LandingPage.
Import Js Net.

(** [userName.split(' ')[0]] *)
Definition firstWord (userName : string) : string :=
  fst (span_until (Ascii.eqb " ") userName).

(** The greeting of the header, rendered when [userName] is truthy. *)
Definition welcome (userName : string) : option string :=
  if truthy userName then Some ("Welcome, " +:+ firstWord userName) else None.

(** The label of the call-to-action button. *)
Definition ctaLabel (userName : string) : string :=
  if truthy userName then "Let's Continue" else "Let's Start".

End LandingPage.

(* ===================================================================== *)
(** * components/ExistingMeetingForm.tsx: the form                        *)
(* ===================================================================== *)

Module ExistingMeetingFormState.
Import Js Storage Net.

(** [Omit<MeetingData, 'title'>] *)
Record FormData := {
  link : string;
  email : string;
  password : string
}.

Record Errors := {
  link_error : option string;
  email_error : option string;
  password_error : option string
}.

Record State := {
  savedMeetings : list StoredMeeting;
  selectedMeeting : option StoredMeeting;
  formData : FormData;
  errors : Errors
}.

Definition no_errors : Errors :=
  {| link_error := None; email_error := None; password_error := None |}.

Definition initial : State := {|
  savedMeetings := [];
  selectedMeeting := None;
  formData := {| link := ""; email := ""; password := "" |};
  errors := no_errors
|}.

(** The effect run on mount: the saved meetings are read and stored in
    the state; what [JSON.parse] throws is not caught. *)
Definition mountEffect (ls : LocalStorage) (st : State) : Result State :=
  meetings ← ExistingMeetingForm.loadSavedMeetings ls;
  Ok {| savedMeetings := meetings; selectedMeeting := selectedMeeting st;
        formData := formData st; errors := errors st |}.

Definition keys_length (e : Errors) : nat :=
  length (omap (λ x : option string, x) [link_error e; email_error e; password_error e]).

Section WithURL.
Variable URL_ctor : string → Result URL.

Definition validateForm (fd : FormData) : Errors * bool :=
  let newErrors := {|
    link_error :=
      if negb (truthy (trim (link fd))) then Some "Meeting link is required"
      else if negb (NewMeetingForm.isValidUrl URL_ctor (link fd))
           then Some "Please enter a valid meeting URL"
      else None;
    email_error :=
      if negb (truthy (trim (email fd))) then Some "Email address is required"
      else if negb (NewMeetingForm.isValidEmail (email fd))
           then Some "Please enter a valid email address"
      else None;
    password_error :=
      if negb (truthy (trim (password fd))) then Some "Password is required"
      else None
  |} in
  (newErrors, Nat.eqb (keys_length newErrors) 0).

(** [handleSubmit]: the state it leaves and the argument of
    [onJoinMeeting] when it calls it. [validateForm] runs only when a
    meeting is selected. *)
Definition handleSubmit (st : State) : State * option NewMeetingForm.MeetingData :=
  match selectedMeeting st with
  | None => (st, None)
  | Some selected =>
      let '(newErrors, valid) := validateForm (formData st) in
      let st' := {| savedMeetings := savedMeetings st; selectedMeeting := selectedMeeting st;
                    formData := formData st; errors := newErrors |} in
      if valid then
        (st', Some {| NewMeetingForm.title := title selected;
                      NewMeetingForm.link := link (formData st);
                      NewMeetingForm.email := email (formData st);
                      NewMeetingForm.password := password (formData st) |})
      else (st', None)
  end.

End WithURL.

Definition handleMeetingSelect (st : State) (meeting : StoredMeeting) : State := {|
  savedMeetings := savedMeetings st;
  selectedMeeting := Some meeting;
  formData := {| link := link (formData st); email := Storage.email meeting;
                 password := password (formData st) |};
  errors := errors st
|}.

Inductive Field := link_field | email_field | password_field.

(** [handleInputChange(field, value)]: the field is set and its error,
    if there is one, is removed. *)
Definition handleInputChange (st : State) (field : Field) (value : string) : State :=
  let fd := formData st in
  let e := errors st in
  {| savedMeetings := savedMeetings st;
     selectedMeeting := selectedMeeting st;
     formData :=
       match field with
       | link_field => {| link := value; email := email fd; password := password fd |}
       | email_field => {| link := link fd; email := value; password := password fd |}
       | password_field => {| link := link fd; email := email fd; password := value |}
       end;
     errors :=
       match field with
       | link_field => {| link_error := None; email_error := email_error e;
                          password_error := password_error e |}
       | email_field => {| link_error := link_error e; email_error := None;
                           password_error := password_error e |}
       | password_field => {| link_error := link_error e; email_error := email_error e;
                              password_error := None |}
       end |}.

End ExistingMeetingFormState.

(* ===================================================================== *)
(** * App.tsx: screens, modals and the user                               *)
(* ===================================================================== *)

Module AppShell.
Import Js Storage Net.

Inductive AppScreen := landing | options | new_meeting | existing_meeting.

(** The state of [App]: the part [handleJoinMeeting] works on and the
    other [useState] cells. *)
Record State := {
  core : App.AppState;
  currentState : AppScreen;
  showNameModal : bool;
  showSummaryModal : bool;
  showContactModal : bool;
  meetingSummary : string;
  userName : string
}.

Definition initial (ls : LocalStorage) : State := {|
  core := {| App.localStorage := ls; App.currentMeetingTitle := "";
             App.showProcessModal := false |};
  currentState := landing;
  showNameModal := false;
  showSummaryModal := false;
  showContactModal := false;
  meetingSummary := "";
  userName := ""
|}.

Definition with_core (c : App.AppState) (st : State) : State :=
  {| core := c; currentState := currentState st; showNameModal := showNameModal st;
     showSummaryModal := showSummaryModal st; showContactModal := showContactModal st;
     meetingSummary := meetingSummary st; userName := userName st |}.

Definition setCurrentState (screen : AppScreen) (st : State) : State :=
  {| core := core st; currentState := screen; showNameModal := showNameModal st;
     showSummaryModal := showSummaryModal st; showContactModal := showContactModal st;
     meetingSummary := meetingSummary st; userName := userName st |}.

Definition setShowNameModal (b : bool) (st : State) : State :=
  {| core := core st; currentState := currentState st; showNameModal := b;
     showSummaryModal := showSummaryModal st; showContactModal := showContactModal st;
     meetingSummary := meetingSummary st; userName := userName st |}.

Definition setShowSummaryModal (b : bool) (st : State) : State :=
  {| core := core st; currentState := currentState st; showNameModal := showNameModal st;
     showSummaryModal := b; showContactModal := showContactModal st;
     meetingSummary := meetingSummary st; userName := userName st |}.

Definition setShowContactModal (b : bool) (st : State) : State :=
  {| core := core st; currentState := currentState st; showNameModal := showNameModal st;
     showSummaryModal := showSummaryModal st; showContactModal := b;
     meetingSummary := meetingSummary st; userName := userName st |}.

Definition setMeetingSummary (summary : string) (st : State) : State :=
  {| core := core st; currentState := currentState st; showNameModal := showNameModal st;
     showSummaryModal := showSummaryModal st; showContactModal := showContactModal st;
     meetingSummary := summary; userName := userName st |}.

Definition setUserName (n : string) (st : State) : State :=
  {| core := core st; currentState := currentState st; showNameModal := showNameModal st;
     showSummaryModal := showSummaryModal st; showContactModal := showContactModal st;
     meetingSummary := meetingSummary st; userName := n |}.

Definition setShowProcessModal (b : bool) (st : State) : State :=
  with_core {| App.localStorage := App.localStorage (core st);
               App.currentMeetingTitle := App.currentMeetingTitle (core st);
               App.showProcessModal := b |} st.

Definition setLocalStorage (ls : LocalStorage) (st : State) : State :=
  with_core {| App.localStorage := ls;
               App.currentMeetingTitle := App.currentMeetingTitle (core st);
               App.showProcessModal := App.showProcessModal (core st) |} st.

Definition localStorage (st : State) : LocalStorage := App.localStorage (core st).

(** The effect run on mount: the stored user's name is shown. *)
Definition mountEffect (st : State) : Result State :=
  user ← getUser (localStorage st);
  match user with
  | Some u => Ok (setUserName (name u) st)
  | None => Ok st
  end.

Definition handleGetStarted (st : State) : Result State :=
  known ← hasUser (localStorage st);
  if negb known then Ok (setShowNameModal true st)
  else Ok (setCurrentState options st).

Definition handleNameSubmit (st : State) (n : string) (now : Z) : State :=
  setCurrentState options
    (setShowNameModal false
       (setUserName n
          (setLocalStorage (saveUser (localStorage st) n now) st))).

Definition handleBackToLanding (st : State) : State := setCurrentState landing st.
Definition handleBackToOptions (st : State) : State := setCurrentState options st.
Definition handleNewMeeting (st : State) : State := setCurrentState new_meeting st.
Definition handleExistingMeeting (st : State) : State := setCurrentState existing_meeting st.

Definition handleJoinMeeting (st : State) (meetingData : NewMeetingForm.MeetingData)
    (env : Env) (net : FetchOutcome JsonBody) : Result (State * list App.Effect) :=
  '(c, effects) ← App.handleJoinMeeting (core st) meetingData env net;
  Ok (with_core c st, effects).

Definition handleProcessComplete (st : State) (summary : string) : State :=
  setShowSummaryModal true (setShowProcessModal false (setMeetingSummary summary st)).

Definition handleCloseSummaryModal (st : State) : State :=
  setCurrentState landing (setShowSummaryModal false st).

Definition handleContactUs (st : State) : State := setShowContactModal true st.
Definition handleCloseContactModal (st : State) : State := setShowContactModal false st.

(** The name modal as [App] renders it: [onSubmit] is [handleNameSubmit],
    and the modal is submitted with [typed] in its input. *)
Definition submitName (st : State) (typed : string) (now : Z) : State * NameEntryModal.State :=
  let modal := NameEntryModal.handleInputChange NameEntryModal.initial typed in
  match NameEntryModal.handleSubmit modal with
  | (modal', Some n) => (handleNameSubmit st n now, modal')
  | (modal', None) => (st, modal')
  end.

End AppShell.

(* ===================================================================== *)
(** * utils/storage.ts on stored texts of any JSON shape                  *)
(* ===================================================================== *)

(** [Storage] types the store as the program declares it. Nothing in the
    program checks that what [JSON.parse] returns has the declared
    type, so this module models the same functions on a store that may
    hold the JSON text of any value. *)

Module RawStorage.
Import Js.

(** A JSON value as [JSON.parse] returns it. An object lists its own
    properties, each key once. [JNumber] carries the integers the
    program stores; no function below looks inside a number. *)
#[local] Unset Elimination Schemes.
Inductive Value :=
| JNull
| JBool (b : bool)
| JNumber (n : Z)
| JString (s : string)
| JArray (items : list Value)
| JObject (props : list (string * Value)).
#[local] Set Elimination Schemes.

Definition is_null (v : Value) : bool :=
  match v with
  | JNull => true
  | _ => false
  end.

Fixpoint own_property (key : string) (props : list (string * Value)) : option Value :=
  match props with
  | [] => None
  | (k, v) :: props' => if String.eqb k key then Some v else own_property key props'
  end.

(** [v.key] for the keys the program reads ([name], [title], [email]),
    which only an object can have as a property; [None] is [undefined].
    Reading a property of [null] throws. *)
Definition get (v : Value) (key : string) : Result (option Value) :=
  match v with
  | JNull => Throw TypeError
  | JObject props => Ok (own_property key props)
  | JBool _ | JNumber _ | JString _ | JArray _ => Ok None
  end.

(** [x === s] for a string [s] *)
Definition strict_equals (x : option Value) (s : string) : bool :=
  match x with
  | Some (JString s') => String.eqb s' s
  | _ => false
  end.

Record LocalStorage := {
  meetgenai_user : option (Payload Value);
  meetgenai_meetings : option (Payload Value)
}.

Definition setItem_meetings (ls : LocalStorage) (p : Payload Value) : LocalStorage :=
  {| meetgenai_user := meetgenai_user ls; meetgenai_meetings := Some p |}.

Definition setItem_user (ls : LocalStorage) (p : Payload Value) : LocalStorage :=
  {| meetgenai_user := Some p; meetgenai_meetings := meetgenai_meetings ls |}.

Definition saveUser (ls : LocalStorage) (name : string) (now : Z) : LocalStorage :=
  let userData := JObject [("name", JString (trim name)); ("savedAt", JNumber now)] in
  setItem_user ls (JSON_stringify userData).

Definition getUser (ls : LocalStorage) : Result Value :=
  try_catch
    (match meetgenai_user ls with
     | Some stored => if payload_truthy stored then JSON_parse stored else Ok JNull
     | None => Ok JNull
     end)
    (λ _, Ok JNull).

Definition clearUser (ls : LocalStorage) : LocalStorage :=
  {| meetgenai_user := None; meetgenai_meetings := meetgenai_meetings ls |}.

Definition getMeetings (ls : LocalStorage) : Result Value :=
  try_catch
    (match meetgenai_meetings ls with
     | Some stored => if payload_truthy stored then JSON_parse stored else Ok (JArray [])
     | None => Ok (JArray [])
     end)
    (λ _, Ok (JArray [])).

(** [getUser() !== null] *)
Definition hasUser (ls : LocalStorage) : Result bool :=
  user ← getUser ls; Ok (negb (is_null user)).

(** [user?.name] *)
Definition user_name (user : Value) : Result (option Value) :=
  if is_null user then Ok None else get user "name".

(** The callback of [filter]:
    [!(meeting.title === newMeeting.title && meeting.email === newMeeting.email)] *)
Definition keeps (newTitle newEmail : string) (meeting : Value) : Result bool :=
  t ← get meeting "title";
  if strict_equals t newTitle then
    e ← get meeting "email"; Ok (negb (strict_equals e newEmail))
  else Ok true.

(** [Array.prototype.filter]: the callback is called on the items in
    order, and what it throws ends the call. *)
Fixpoint filter_items (callback : Value → Result bool) (items : list Value)
  : Result (list Value) :=
  match items with
  | [] => Ok []
  | v :: items' =>
      callback v ≫= λ keep : bool,
      kept ← filter_items callback items';
      Ok (if keep then v :: kept else kept)
  end.

(** [meetings.filter(callback)]: only an array has the method; a JSON
    value of another kind has no callable [filter]. *)
Definition Array_filter (callback : Value → Result bool) (meetings : Value)
  : Result (list Value) :=
  match meetings with
  | JArray items => filter_items callback items
  | JNull | JBool _ | JNumber _ | JString _ | JObject _ => Throw TypeError
  end.

(** The new record as [JSON.stringify] writes it: a [userName] that is
    [undefined] is left out. *)
Definition new_record (title0 email0 : string) (env : Storage.Env)
    (userName : option Value) : Value :=
  JObject ([("id", JString (Storage.generateId env));
            ("title", JString (trim title0));
            ("email", JString (trim email0));
            ("savedAt", JNumber (Storage.now_savedAt env))] ++
           match userName with
           | Some v => [("userName", v)]
           | None => []
           end).

Definition saveMeeting (ls : LocalStorage) (title0 email0 : string) (env : Storage.Env)
  : Result LocalStorage :=
  meetings ← getMeetings ls;
  user ← getUser ls;
  userName ← user_name user;
  let newMeeting := new_record title0 email0 env userName in
  (* Remove duplicate meetings with same title and email *)
  filteredMeetings ← Array_filter (keeps (trim title0) (trim email0)) meetings;
  let filteredMeetings := newMeeting :: filteredMeetings in
  (* Keep only the last 10 meetings *)
  let recentMeetings := take 10 filteredMeetings in
  Ok (setItem_meetings ls (JSON_stringify (JArray recentMeetings))).

(** The effect [ExistingMeetingForm] runs on mount:
    [JSON.parse(localStorage.getItem('meetgenai_meetings') || '[]')]. *)
Definition loadSavedMeetings (ls : LocalStorage) : Result Value :=
  let text :=
    match meetgenai_meetings ls with
    | Some stored => if payload_truthy stored then stored else JsonText (JArray [])
    | None => JsonText (JArray [])
    end in
  JSON_parse text.

(** [App.handleGetStarted], reading the store [ls]; [st] holds the cells
    of [useState]. *)
Definition handleGetStarted (ls : LocalStorage) (st : AppShell.State)
  : Result AppShell.State :=
  known ← hasUser ls;
  if negb known then Ok (AppShell.setShowNameModal true st)
  else Ok (AppShell.setCurrentState AppShell.options st).

(** ** Observations *)

(** Whether the callback of [filter] keeps an item. *)
Definition kept_by (newTitle newEmail : string) (meeting : Value) : bool :=
  match keeps newTitle newEmail meeting with
  | Ok keep => keep
  | Throw _ => false
  end.

(** The items [saveMeeting] finds in the store, when it can work on
    them: a key that is missing, empty or not JSON counts as no items;
    [None] when the stored JSON is not an array, or is an array with
    [null] among its items. *)
Definition history_items (ls : LocalStorage) : option (list Value) :=
  match meetgenai_meetings ls with
  | Some (JsonText (JArray items)) =>
      if forallb (λ v, negb (is_null v)) items then Some items else None
  | Some (JsonText _) => None
  | Some Malformed | Some EmptyText | None => Some []
  end.

(** ** The typed store inside the store of any shape *)

Definition of_user (u : Storage.UserData) : Value :=
  JObject [("name", JString (Storage.name u)); ("savedAt", JNumber (Storage.userSavedAt u))].

Definition of_meeting (m : Storage.StoredMeeting) : Value :=
  JObject ([("id", JString (Storage.id m));
            ("title", JString (Storage.title m));
            ("email", JString (Storage.email m));
            ("savedAt", JNumber (Storage.savedAt m))] ++
           match Storage.userName m with
           | Some n => [("userName", JString n)]
           | None => []
           end).

Definition of_payload {A} (f : A → Value) (p : Payload A) : Payload Value :=
  match p with
  | EmptyText => EmptyText
  | Malformed => Malformed
  | JsonText v => JsonText (f v)
  end.

Definition of_storage (ls : Storage.LocalStorage) : LocalStorage := {|
  meetgenai_user := of_payload of_user <$> Storage.meetgenai_user ls;
  meetgenai_meetings :=
    of_payload (λ l, JArray (of_meeting <$> l)) <$> Storage.meetgenai_meetings ls
|}.

(** A store whose history key holds the text [null], and one where it
    holds the text of an empty object. *)
Definition null_history : LocalStorage :=
  {| meetgenai_user := None; meetgenai_meetings := Some (JsonText JNull) |}.

Definition object_history : LocalStorage :=
  {| meetgenai_user := None; meetgenai_meetings := Some (JsonText (JObject [])) |}.



(** A store whose user key holds the text [null]. *)
Definition null_user : LocalStorage :=
  {| meetgenai_user := Some (JsonText JNull); meetgenai_meetings := None |}.

End RawStorage.

(* ===================================================================== *)
(** * The two ways to join a meeting, from the form to [App]              *)
(* ===================================================================== *)

Module JoinFlow.
Import Js Storage Net.

Inductive Effect :=
| FormEffect (e : NewMeetingForm.Effect)
| AppEffect (e : App.Effect).



(** A response that is ok and whose body can be read as JSON. *)
Definition ok_with_json (net : FetchOutcome JsonBody) : bool :=
  match net with
  | Response true (BodyNull | BodyObject _) => true
  | _ => false
  end.

(** What [handleJoinMeeting] writes to the console once its request has
    ended: the result, or the error it caught. *)
Definition logged (net : FetchOutcome JsonBody) : App.Effect :=
  if ok_with_json net then App.ConsoleLog else App.ConsoleError.

Section WithURL.
Variable URL_ctor : string → Result URL.



(** The existing-meeting form is submitted:
    [ExistingMeetingForm.handleSubmit] with [App.handleJoinMeeting] as
    [onJoinMeeting]. *)
Definition submitExisting (st : App.AppState) (form : ExistingMeetingFormState.State)
    (env : Env) (net_app : FetchOutcome JsonBody)
  : Result (ExistingMeetingFormState.State * App.AppState * list Effect) :=
  match ExistingMeetingFormState.handleSubmit URL_ctor form with
  | (form', Some d) =>
      '(st', done) ← App.handleJoinMeeting st d env net_app;
      Ok (form', st', FormEffect (NewMeetingForm.OnJoinMeeting d) :: (AppEffect <$> done))
  | (form', None) => Ok (form', st, [])
  end.

End WithURL.

End JoinFlow.

(* ===================================================================== *)
(** * MeetingProcessModal: more observations                              *)
(* ===================================================================== *)

Module ProcessModalObs.
Import Js Net MeetingProcessModal.

(** [progressValue] as the [switch] leaves it. *)
Definition progressValue (status : option string) : Z :=
  if status_is status "not started" then 25
  else if status_is status "Transcription" || status_is status "Preprocessing" then 50
  else if status_is status "summary generation" then 75
  else if status_is status "completed" then 100
  else 10.

(** The statuses the [switch] has a case for. *)
Definition recognised (status : option string) : bool :=
  status_is status "not started" || status_is status "Transcription"
  || status_is status "Preprocessing" || status_is status "summary generation"
  || status_is status "completed".

(** The progress the component shows with each stage. *)
Definition progress_of (step : ProcessStep) (value : Z) : Prop :=
  match step with
  | joining => value = 0 ∨ value = 10
  | joined => value = 25
  | ended => value = 50
  | generating => value = 75
  | completed => value = 100
  end.

(** Handles are handed out in order: the running interval and the
    requests in flight have handles below the next fresh one. *)
Definition handles_issued (s : State) : Prop :=
  Forall (λ h, (h < fresh s)%nat) (inflight s) ∧
  ∀ h due, interval s = Some (h, due) → (h < fresh s)%nat.

(** The interval opened at time [t0], when [p0] requests had been
    issued, keeps its pace: the n-th request since then is issued at
    [t0 + n * POLL_INTERVAL_MS], and the next callback is due one period
    after the last. *)
Definition paced (t0 p0 : Z) (s : State) : Prop :=
  let n := Z.of_nat (polls_issued (log s)) - p0 in
  0 ≤ n ∧
  t0 + POLL_INTERVAL_MS * n ≤ clock s ∧
  ∀ h due, interval s = Some (h, due) →
           due = t0 + POLL_INTERVAL_MS * (n + 1) ∧ clock s ≤ due.

(** Two ticks, and the response to the first request after 25 seconds. *)
Definition slow_first_response : list Event :=
  [Elapse 10000; TimerFire; Elapse 10000; TimerFire; Elapse 5000;
   Settle 0 (ok_status "not started")].

(** Renders of the parent that change [onComplete] while the modal is
    open, each after a wait. *)
Definition rerenders (waits : list Z) : list Event :=
  waits ≫= λ dt, [Elapse dt; Props true].

End ProcessModalObs.

(* ===================================================================== *)
(** * Properties of the meeting history store                             *)
(* ===================================================================== *)

Module StorageFacts.
Import Js Storage.

Lemma getMeetings_eq ls : getMeetings ls = Ok (stored_list (meetgenai_meetings ls)).
Proof.
  unfold getMeetings.
  destruct (meetgenai_meetings ls) as [[| |l]|]; reflexivity.
Qed.

Lemma getUser_eq ls : getUser ls = Ok (stored_user (meetgenai_user ls)).
Proof.
  unfold getUser.
  destruct (meetgenai_user ls) as [[| |u]|]; reflexivity.
Qed.

Lemma saveMeeting_eq ls t e env :
  saveMeeting ls t e env =
  Ok (setItem_meetings ls
        (JsonText (push (record_of (stored_user (meetgenai_user ls))
                           {| call_title := t; call_email := e; call_env := env |})
                        (stored_list (meetgenai_meetings ls))))).
Proof.
  unfold saveMeeting. rewrite getMeetings_eq, getUser_eq. reflexivity.
Qed.

Lemma saveMeetings_snoc ls calls c :
  saveMeetings ls (calls ++ [c]) =
  (ls' ← saveMeetings ls calls;
   saveMeeting ls' (call_title c) (call_email c) (call_env c)).
Proof.
  revert ls. induction calls as [|c0 calls IH]; intros ls; simpl.
  - destruct (saveMeeting ls _ _ _); reflexivity.
  - destruct (saveMeeting ls _ _ _) as [ls'|err]; simpl; [apply IH | reflexivity].
Qed.

Lemma push_length new l : (length (push new l) ≤ 10)%nat.
Proof. unfold push. rewrite length_take. lia. Qed.

Lemma push_head new l : ∃ rest, push new l = new :: rest.
Proof. unfold push. simpl. eauto. Qed.

Lemma push_rest_other_key new l rest :
  push new l = new :: rest → Forall (λ m, ¬ same_key m new) rest.
Proof.
  unfold push. simpl. intros [= <-].
  apply Forall_take, Forall_forall. intros m Hm.
  apply list_elem_of_filter in Hm. tauto.
Qed.

Lemma filter_all {A} (P : A → Prop) `{∀ x, Decision (P x)} (l : list A) :
  Forall P l → filter P l = l.
Proof.
  induction 1 as [|x l Hx Hl IH]; [reflexivity|].
  rewrite filter_cons_True by assumption. by rewrite IH.
Qed.

Lemma filter_none {A} (P : A → Prop) `{∀ x, Decision (P x)} (l : list A) :
  Forall (λ x, ¬ P x) l → filter P l = [].
Proof.
  induction 1 as [|x l Hx Hl IH]; [reflexivity|].
  by rewrite filter_cons_False.
Qed.

(** The newest records stay in front: pushing onto a history that starts
    with [L] gives a history that starts with the new record and [L]. *)
Lemma push_recent new (L rest : list StoredMeeting) :
  Forall (λ m, ¬ same_key m new) L →
  ∃ rest', push new (take 10 (L ++ rest)) = take 10 ((new :: L) ++ rest').
Proof.
  intros HL. unfold push.
  rewrite take_app, filter_app.
  rewrite (filter_all _ (take 10 L)) by by apply Forall_take.
  eexists (filter _ (take (10 - length L) rest)). simpl. f_equal.
  destruct (decide (length L ≤ 10)%nat) as [Hle|Hgt].
  - by rewrite (take_ge L 10).
  - rewrite !take_app_le; [|lia|rewrite length_take; lia].
    rewrite take_take. f_equal.
Qed.

Lemma setItem_meetings_twice ls p q :
  setItem_meetings (setItem_meetings ls p) q = setItem_meetings ls q.
Proof. reflexivity. Qed.

Lemma same_key_record_of u c c' :
  same_key (record_of u c') (record_of u c) ↔ call_key c' = call_key c.
Proof.
  unfold same_key, call_key. simpl. split.
  - intros [-> ->]. reflexivity.
  - intros [= -> ->]. done.
Qed.

(** After a sequence of calls with distinct trimmed keys the history
    starts with their records, newest first. *)
Lemma saveMeetings_recent ls calls c :
  NoDup (call_key <$> calls ++ [c]) →
  let u := stored_user (meetgenai_user ls) in
  ∃ rest,
    saveMeetings ls (calls ++ [c]) =
    Ok (setItem_meetings ls
          (JsonText (take 10 (reverse (record_of u <$> calls ++ [c]) ++ rest)))).
Proof.
  intros Hnd u. revert c Hnd.
  induction calls as [|c0 calls IH] using rev_ind; intros c Hnd.
  - simpl. rewrite saveMeeting_eq. simpl.
    eexists. unfold push. destruct c. reflexivity.
  - rewrite fmap_app in Hnd. apply NoDup_app in Hnd as (Hnd & Hfresh & _).
    destruct (IH c0) as [rest IHeq]; [done|].
    rewrite saveMeetings_snoc, IHeq. simpl.
    rewrite saveMeeting_eq. simpl. fold u.
    rewrite setItem_meetings_twice.
    destruct (push_recent (record_of u c)
                (reverse (record_of u <$> calls ++ [c0])) rest) as [rest' Hp].
    { apply Forall_reverse, Forall_fmap, Forall_forall. intros c' Hc'. simpl.
      rewrite same_key_record_of. intros Heq.
      apply (Hfresh (call_key c')); [by apply list_elem_of_fmap_2|].
      rewrite Heq. simpl. by left. }
    exists rest'. rewrite (fmap_snoc _ (calls ++ [c0])), reverse_snoc.
    destruct c. simpl in *. by rewrite Hp.
Qed.

(** Whatever the calls, the history after the last one is at most ten
    long and starts with the record of that call. *)
Lemma saveMeetings_last ls calls c :
  let u := stored_user (meetgenai_user ls) in
  ∃ l, saveMeetings ls (calls ++ [c]) = Ok (setItem_meetings ls (JsonText l)) ∧
       (length l ≤ 10)%nat ∧ head l = Some (record_of u c).
Proof.
  intros u.
  assert (∀ calls, ∃ ls', saveMeetings ls calls = Ok ls' ∧
            meetgenai_user ls' = meetgenai_user ls ∧
            ∀ p, setItem_meetings ls' p = setItem_meetings ls p) as Hrun.
  { clear. intros calls. revert ls.
    induction calls as [|c0 calls IH]; intros ls; simpl; [by eauto|].
    rewrite saveMeeting_eq. simpl.
    destruct (IH (setItem_meetings ls (JsonText (push
      (record_of (stored_user (meetgenai_user ls))
         {| call_title := call_title c0; call_email := call_email c0;
            call_env := call_env c0 |})
      (stored_list (meetgenai_meetings ls)))))) as (ls' & -> & Hu & Hs).
    exists ls'. by repeat split. }
  destruct (Hrun calls) as (ls' & Heq & Hu & Hs).
  rewrite saveMeetings_snoc, Heq. simpl. rewrite saveMeeting_eq, Hs, Hu. fold u.
  eexists. split; [reflexivity|]. split; [apply push_length|].
  destruct c. reflexivity.
Qed.

(** ** The claims on the store *)

(** C5, as the code has it. Calling [saveMeeting] twice with one pair
    (title, email) leaves exactly one stored record whose key is the
    pair of the trimmed title and the trimmed email; its [savedAt] is
    the time read by the second call and it is the first record of the
    stored list. *)
Theorem saveMeeting_twice_one_record
    (ls : LocalStorage) (t e : string) (env1 env2 : Env) :
  ∃ ls2 m rest,
    (ls1 ← saveMeeting ls t e env1; saveMeeting ls1 t e env2) = Ok ls2 ∧
    getMeetings ls2 = Ok (m :: rest) ∧
    has_key (trim t) (trim e) m ∧
    savedAt m = now_savedAt env2 ∧
    length (filter (has_key (trim t) (trim e)) (m :: rest)) = 1%nat.
Proof.
  rewrite saveMeeting_eq. simpl. rewrite saveMeeting_eq. simpl.
  set (u := stored_user (meetgenai_user ls)).
  set (c2 := {| call_title := t; call_email := e; call_env := env2 |}).
  set (l1 := push _ _).
  destruct (push_head (record_of u c2) l1) as [rest Hrest].
  exists (setItem_meetings (setItem_meetings ls (JsonText l1))
            (JsonText (push (record_of u c2) l1))), (record_of u c2), rest.
  split; [reflexivity|].
  split; [by rewrite getMeetings_eq; simpl; rewrite Hrest|].
  split; [done|]. split; [done|].
  rewrite filter_cons_True by done. simpl. f_equal.
  apply length_zero_iff_nil, filter_none.
  eapply Forall_impl; [exact (push_rest_other_key _ _ _ Hrest)|].
  intros m Hm. exact Hm.
Qed.

(** C5 as it is stated fails on a title with white space around it: the
    record that is stored has the trimmed title, so no stored record
    has the title that was passed. *)
Lemma saveMeeting_twice_padded_title :
  (∃ ls2 l,
      (ls1 ← saveMeeting empty_storage " Standup" "a@b.com" (env_at 1001);
       saveMeeting ls1 " Standup" "a@b.com" (env_at 1002)) = Ok ls2 ∧
      getMeetings ls2 = Ok l ∧
      title <$> l = ["Standup"] ∧
      length (filter (has_key " Standup" "a@b.com") l) = 0%nat) ∧
  ¬ ∃ ls2 m rest,
      (ls1 ← saveMeeting empty_storage " Standup" "a@b.com" (env_at 1001);
       saveMeeting ls1 " Standup" "a@b.com" (env_at 1002)) = Ok ls2 ∧
      getMeetings ls2 = Ok (m :: rest) ∧
      has_key " Standup" "a@b.com" m ∧
      savedAt m = 1002 ∧
      length (filter (has_key " Standup" "a@b.com") (m :: rest)) = 1%nat.
Proof.
  split.
  - do 2 eexists. vm_compute. repeat split.
  - intros (ls2 & m & rest & Hsave & Hget & [Htitle _] & _).
    vm_compute in Hsave. injection Hsave as <-.
    vm_compute in Hget. injection Hget as <- <-.
    discriminate Htitle.
Qed.

(** C6, as the code has it. After every call of [saveMeeting] the stored
    list has at most ten records and starts with the record of that
    call; after eleven calls whose trimmed (title, email) pairs are
    pairwise different it holds exactly the records of the last ten
    calls, newest first, and no record with the key of the first call. *)
Theorem history_capped_newest_first
    (ls : LocalStorage) (calls : list SaveCall) (c : SaveCall) :
  let u := stored_user (meetgenai_user ls) in
  ∃ ls' l,
    saveMeetings ls (calls ++ [c]) = Ok ls' ∧
    getMeetings ls' = Ok l ∧
    (length l ≤ 10)%nat ∧
    head l = Some (record_of u c) ∧
    (length (calls ++ [c]) = 11%nat →
     NoDup (call_key <$> calls ++ [c]) →
     l = reverse (record_of u <$> drop 1 (calls ++ [c])) ∧
     length l = 10%nat ∧
     ∀ c1, head (calls ++ [c]) = Some c1 →
           Forall (λ m, ¬ has_key (trim (call_title c1)) (trim (call_email c1)) m) l).
Proof.
  intros u.
  destruct (saveMeetings_last ls calls c) as (l & Hsave & Hlen & Hhead).
  exists (setItem_meetings ls (JsonText l)), l.
  split; [exact Hsave|]. split; [by rewrite getMeetings_eq|].
  split; [exact Hlen|]. split; [exact Hhead|].
  intros Hn Hnd.
  destruct (saveMeetings_recent ls calls c Hnd) as [rest Hrecent].
  rewrite Hsave in Hrecent. injection Hrecent as ->. fold u.
  assert (length (reverse (record_of u <$> calls ++ [c])) = 11%nat) as Hlen11
    by by rewrite length_reverse, length_fmap.
  rewrite take_app_le by lia.
  rewrite take_reverse, length_fmap, Hn, <- fmap_drop.
  change (11 - 10)%nat with 1%nat.
  split; [reflexivity|].
  split; [rewrite length_reverse, length_fmap, length_drop; lia|].
  intros c1 Hc1.
  destruct calls as [|c0 calls']; [by simpl in Hn|].
  simpl in Hc1. injection Hc1 as ->. simpl.
  change ((c1 :: calls') ++ [c]) with (c1 :: (calls' ++ [c])) in Hnd.
  rewrite fmap_cons in Hnd. apply NoDup_cons in Hnd as [Hfresh _].
  rewrite drop_0.
  apply Forall_reverse, Forall_fmap, Forall_forall. intros c' Hc' [Ht He].
  apply Hfresh. apply list_elem_of_fmap. exists c'. split; [|done].
  unfold call_key. simpl in Ht, He. by rewrite Ht, He.
Qed.

(** The theorem at eleven calls from an empty store: the first call is
    evicted. *)
Lemma history_capped_newest_first_witness :
  ∃ ls',
    saveMeetings empty_storage eleven_calls = Ok ls' ∧
    getMeetings ls' = Ok (reverse (record_of None <$> drop 1 eleven_calls)) ∧
    length (reverse (record_of None <$> drop 1 eleven_calls)) = 10%nat.
Proof.
  destruct (history_capped_newest_first empty_storage
              (take 10 eleven_calls) (call "M11" "a@b.com" 1011))
    as (ls' & l & Hsave & Hget & _ & _ & Hfull).
  destruct Hfull as (Hl & Hlen & _).
  - reflexivity.
  - apply (bool_decide_unpack _). vm_compute. exact I.
  - exists ls'. subst l. split; [exact Hsave|]. split; [exact Hget|exact Hlen].
Defined.

(** C6 as it is stated fails on eleven pairwise different pairs of which
    three differ only by white space around the title: nine records are
    left. *)
Lemma eleven_distinct_pairs_nine_records :
  length eleven_padded_calls = 11%nat ∧
  NoDup (call_pair <$> eleven_padded_calls) ∧
  ¬ ∃ ls' l,
      saveMeetings empty_storage eleven_padded_calls = Ok ls' ∧
      getMeetings ls' = Ok l ∧
      length l = 10%nat.
Proof.
  split; [reflexivity|].
  split; [apply (bool_decide_unpack _); vm_compute; exact I|].
  intros (ls' & l & Hsave & Hget & Hlen).
  vm_compute in Hsave. injection Hsave as <-.
  vm_compute in Hget. injection Hget as <-.
  discriminate Hlen.
Qed.

End StorageFacts.

(* ===================================================================== *)
(** * Properties of the join handler of [App]                             *)
(* ===================================================================== *)

Module AppFacts.
Import Js Storage Net App StorageFacts.

(** The handler always returns; its first two effects are the write of
    the history and the request, in that order. *)
Lemma handleJoinMeeting_eq st d env net :
  ∃ tail,
    handleJoinMeeting st d env net =
    Ok ({| localStorage :=
             setItem_meetings (localStorage st)
               (JsonText (push (record_of (stored_user (meetgenai_user (localStorage st)))
                                  {| call_title := NewMeetingForm.title d;
                                     call_email := NewMeetingForm.email d;
                                     call_env := env |})
                               (stored_list (meetgenai_meetings (localStorage st)))));
           currentMeetingTitle := NewMeetingForm.title d;
           showProcessModal := true |},
        SetItemMeetings
          (Some (JsonText (push (record_of (stored_user (meetgenai_user (localStorage st)))
                                  {| call_title := NewMeetingForm.title d;
                                     call_email := NewMeetingForm.email d;
                                     call_env := env |})
                               (stored_list (meetgenai_meetings (localStorage st))))))
        :: Fetch "/api/join_meeting" d :: tail).
Proof.
  unfold handleJoinMeeting. rewrite saveMeeting_eq. simpl. eauto.
Qed.

(** C9. The persisted history does not depend on the password: two
    configurations with the same title and the same email, joined from
    the same state, leave the same [localStorage], whatever their
    passwords and links and however the join requests end; the record
    stored in front is built from the title, the email, the stored user
    and the clock alone. *)
Theorem password_never_persisted
    (st : AppState) (d1 d2 : NewMeetingForm.MeetingData) (env : Env)
    (net1 net2 : FetchOutcome JsonBody) :
  NewMeetingForm.title d1 = NewMeetingForm.title d2 →
  NewMeetingForm.email d1 = NewMeetingForm.email d2 →
  ∃ st1 st2 effects1 effects2 rest,
    handleJoinMeeting st d1 env net1 = Ok (st1, effects1) ∧
    handleJoinMeeting st d2 env net2 = Ok (st2, effects2) ∧
    localStorage st1 = localStorage st2 ∧
    getMeetings (localStorage st1) =
      Ok (record_of (stored_user (meetgenai_user (localStorage st)))
            {| call_title := NewMeetingForm.title d1;
               call_email := NewMeetingForm.email d1;
               call_env := env |} :: rest).
Proof.
  intros Ht He.
  destruct (handleJoinMeeting_eq st d1 env net1) as [tail1 H1].
  destruct (handleJoinMeeting_eq st d2 env net2) as [tail2 H2].
  rewrite H1, H2, <- Ht, <- He.
  destruct (push_head
    (record_of (stored_user (meetgenai_user (localStorage st)))
       {| call_title := NewMeetingForm.title d1;
          call_email := NewMeetingForm.email d1; call_env := env |})
    (stored_list (meetgenai_meetings (localStorage st)))) as [rest Hrest].
  do 4 eexists. exists rest.
  split; [reflexivity|]. split; [reflexivity|]. split; [reflexivity|].
  simpl. rewrite getMeetings_eq. simpl. by rewrite Hrest.
Qed.

(** Two passwords, one stored history. *)
Lemma password_never_persisted_witness :
  ∃ st1 st2 effects1 effects2,
    handleJoinMeeting initial_state (with_password padded_meeting "hunter2")
      (env_at 1001) (Response true (BodyObject None)) = Ok (st1, effects1) ∧
    handleJoinMeeting initial_state (with_password padded_meeting "correct horse")
      (env_at 1001) Rejected = Ok (st2, effects2) ∧
    localStorage st1 = localStorage st2.
Proof.
  destruct (password_never_persisted initial_state
              (with_password padded_meeting "hunter2")
              (with_password padded_meeting "correct horse")
              (env_at 1001) (Response true (BodyObject None)) Rejected)
    as (st1 & st2 & e1 & e2 & rest & H1 & H2 & Hls & _).
  - reflexivity.
  - reflexivity.
  - exists st1, st2, e1, e2. auto.
Defined.

(** C10, as the code has it. The handler writes the history before it
    issues the join request, and however the request ends (a response
    that is ok, a response that is not, no response) the stored history
    then starts with a record whose title and email are the trimmed
    title and the trimmed email of the meeting. *)
Theorem join_saves_before_request
    (st : AppState) (d : NewMeetingForm.MeetingData) (env : Env)
    (net : FetchOutcome JsonBody) :
  ∃ st' m rest tail,
    handleJoinMeeting st d env net =
      Ok (st', SetItemMeetings (meetgenai_meetings (localStorage st'))
               :: Fetch "/api/join_meeting" d :: tail) ∧
    getMeetings (localStorage st') = Ok (m :: rest) ∧
    has_key (trim (NewMeetingForm.title d)) (trim (NewMeetingForm.email d)) m.
Proof.
  destruct (handleJoinMeeting_eq st d env net) as [tail H].
  destruct (push_head
    (record_of (stored_user (meetgenai_user (localStorage st)))
       {| call_title := NewMeetingForm.title d;
          call_email := NewMeetingForm.email d; call_env := env |})
    (stored_list (meetgenai_meetings (localStorage st)))) as [rest Hrest].
  eexists _, _, rest, tail.
  split; [exact H|]. simpl. rewrite getMeetings_eq. simpl. rewrite Hrest.
  split; [reflexivity|]. done.
Qed.

(** C10 as it is stated fails on a meeting the form accepts whose title
    has a leading space: the history holds a record for the trimmed
    title and none for the title of the meeting. *)
Lemma join_padded_title_not_in_history :
  snd (NewMeetingForm.validateForm new_URL padded_meeting) = true ∧
  ¬ ∃ st' effects l m,
      handleJoinMeeting initial_state padded_meeting (env_at 1001)
        (Response true (BodyObject None)) = Ok (st', effects) ∧
      getMeetings (localStorage st') = Ok l ∧
      m ∈ l ∧
      has_key (NewMeetingForm.title padded_meeting)
              (NewMeetingForm.email padded_meeting) m.
Proof.
  split; [reflexivity|].
  intros (st' & effects & l & m & Hrun & Hget & Hin & [Htitle _]).
  vm_compute in Hrun. injection Hrun as <- <-.
  vm_compute in Hget. injection Hget as <-.
  apply list_elem_of_singleton in Hin. subst m.
  discriminate Htitle.
Qed.

End AppFacts.

(* ===================================================================== *)
(** * Properties of the forms                                             *)
(* ===================================================================== *)

Module FormFacts.
Import Js Storage Net NewMeetingForm.

Lemma isValidUrl_false URL_ctor url :
  ¬ returns (URL_ctor url) ∨ Forall (λ h, includes url h = false) allowed_hosts →
  isValidUrl URL_ctor url = false.
Proof.
  unfold isValidUrl, returns. intros [Hthrow|Hnone].
  - destruct (URL_ctor url) as [u|err]; [|reflexivity].
    exfalso. apply Hthrow. eauto.
  - destruct (URL_ctor url) as [u|err]; [|reflexivity]. simpl.
    unfold allowed_hosts in Hnone.
    apply Forall_cons in Hnone as [-> Hnone].
    apply Forall_cons in Hnone as [-> Hnone].
    apply Forall_cons in Hnone as [-> _].
    reflexivity.
Qed.

(** C3, as the code has it. When the link does not parse as a URL, or
    contains none of [meet.google.com], [zoom.us] and
    [teams.microsoft.com] as a substring, the submission ends with an
    error on the link and does nothing else: no request to the join
    endpoint, no alert, no call of [onJoinMeeting]. This holds for every
    URL constructor. *)
Theorem invalid_link_blocks_submission
    (URL_ctor : string → Result URL) (formData : MeetingData)
    (net : FetchOutcome JsonBody) :
  ¬ returns (URL_ctor (link formData)) ∨
    Forall (λ h, includes (link formData) h = false) allowed_hosts →
  is_Some (link_error (fst (handleSubmit URL_ctor formData net))) ∧
  snd (handleSubmit URL_ctor formData net) = [].
Proof.
  intros Hbad. apply isValidUrl_false in Hbad.
  unfold handleSubmit, validateForm. rewrite Hbad. simpl.
  unfold keys_length. simpl.
  destruct (truthy (trim (link formData))); simpl.
  - destruct (if negb (truthy (trim (title formData))) then _ else _); simpl; eauto.
  - destruct (if negb (truthy (trim (title formData))) then _ else _); simpl; eauto.
Qed.

(** The theorem on a link without a scheme, which is not a URL. *)
Lemma invalid_link_blocks_submission_witness :
  new_URL (link no_scheme_form) = Throw TypeError ∧
  is_Some (link_error (fst (handleSubmit new_URL no_scheme_form
                              (Response true (BodyObject None))))) ∧
  snd (handleSubmit new_URL no_scheme_form (Response true (BodyObject None))) = [].
Proof.
  split; [reflexivity|].
  apply (invalid_link_blocks_submission new_URL no_scheme_form).
  left. intros [u Hu]. discriminate Hu.
Defined.

(** C3 as it is stated fails on a link that parses as a URL of another
    host and has [zoom.us] in its path: the form accepts it and sends
    the join request. *)
Lemma foreign_host_link_is_submitted :
  (∃ u, new_URL (link foreign_host_form) = Ok u ∧ hostname u ∉ allowed_hosts) ∧
  handleSubmit new_URL foreign_host_form (Response true (BodyObject None)) =
    (no_errors,
     [Fetch "http://localhost:5000/api/join_meeting" foreign_host_form;
      OnJoinMeeting foreign_host_form]) ∧
  ¬ (is_Some (link_error (fst (handleSubmit new_URL foreign_host_form
                                 (Response true (BodyObject None))))) ∧
     Forall (λ e, is_fetch e = false)
       (snd (handleSubmit new_URL foreign_host_form
               (Response true (BodyObject None))))).
Proof.
  split; [|split].
  - exists {| protocol := "https"; hostname := "example.com" |}.
    split; [reflexivity|].
    unfold allowed_hosts. intros Hin.
    repeat (apply elem_of_cons in Hin as [Heq|Hin]; [discriminate Heq|]).
    by apply elem_of_nil in Hin.
  - reflexivity.
  - intros [[msg Hmsg] _]. discriminate Hmsg.
Qed.

(** C4. With a payload under the meetings key that is not JSON,
    [getMeetings] returns the empty list, but the effect of
    [ExistingMeetingForm] that reads the same key throws a
    [SyntaxError]: nothing catches its [JSON.parse]. *)
Theorem corrupt_history_reaches_existing_form (user : option (Payload UserData)) :
  let ls := {| meetgenai_user := user; meetgenai_meetings := Some Malformed |} in
  getMeetings ls = Ok [] ∧
  ExistingMeetingForm.loadSavedMeetings ls = Throw SyntaxError.
Proof. split; reflexivity. Qed.

End FormFacts.

(* ===================================================================== *)
(** * Properties of the polling of [MeetingProcessModal]                  *)
(* ===================================================================== *)

Module PollingFacts.
Import Js Net MeetingProcessModal.

Lemma steps_set_app l1 l2 : steps_set (l1 ++ l2) = steps_set l1 ++ steps_set l2.
Proof. apply omap_app. Qed.

Lemma completions_app l1 l2 : completions (l1 ++ l2) = completions l1 ++ completions l2.
Proof. apply omap_app. Qed.

Lemma polls_issued_app l1 l2 :
  polls_issued (l1 ++ l2) = (polls_issued l1 + polls_issued l2)%nat.
Proof. unfold polls_issued. by rewrite omap_app, length_app. Qed.

(** ** The callback *)

Lemma clearInterval_fields h s :
  log (clearInterval h s) = log s ∧ inflight (clearInterval h s) = inflight s ∧
  currentStep (clearInterval h s) = currentStep s ∧
  progress (clearInterval h s) = progress s ∧ clock (clearInterval h s) = clock s.
Proof.
  unfold clearInterval. destruct (interval s) as [[h' due]|]; [|done].
  destruct (h' =? h)%nat; done.
Qed.

Lemma clearInterval_None h s : interval s = None → interval (clearInterval h s) = None.
Proof. unfold clearInterval. intros H. by rewrite H. Qed.

Lemma status_is_true status literal :
  status_is status literal = true → status = Some literal.
Proof.
  destruct status as [st|]; simpl; [|done].
  intros H. apply String.eqb_eq in H. by subst.
Qed.

(** The five branches of the [switch]. *)
Lemma status_cases (P : option string → Prop) :
  P (Some "not started") → P (Some "Transcription") → P (Some "Preprocessing") →
  P (Some "summary generation") → P (Some "completed") →
  (∀ status,
     status_is status "not started" = false →
     status_is status "Transcription" || status_is status "Preprocessing" = false →
     status_is status "summary generation" = false →
     status_is status "completed" = false → P status) →
  ∀ status, P status.
Proof.
  intros H1 H2 H3 H4 H5 Hother status.
  destruct (status_is status "not started") eqn:E1;
    [by apply status_is_true in E1 as ->|].
  destruct (status_is status "Transcription") eqn:E2;
    [by apply status_is_true in E2 as ->|].
  destruct (status_is status "Preprocessing") eqn:E3;
    [by apply status_is_true in E3 as ->|].
  destruct (status_is status "summary generation") eqn:E4;
    [by apply status_is_true in E4 as ->|].
  destruct (status_is status "completed") eqn:E5;
    [by apply status_is_true in E5 as ->|].
  apply Hother; try done. by rewrite E2, E3.
Qed.

Lemma on_status_log h status s :
  ∃ added,
    log (on_status h status s) = log s ++ added ∧
    steps_set added = [nextStep status] ∧
    completions added = completion_of status ∧
    polls_issued added = 0%nat.
Proof.
  destruct (clearInterval_fields h s) as (Hlog & _).
  revert status. apply status_cases.
  - exists [SetCurrentStep joined; SetProgress 25]. simpl. by rewrite <- app_assoc.
  - exists [SetCurrentStep ended; SetProgress 50]. simpl. by rewrite <- app_assoc.
  - exists [SetCurrentStep ended; SetProgress 50]. simpl. by rewrite <- app_assoc.
  - exists [SetCurrentStep generating; SetProgress 75]. simpl. by rewrite <- app_assoc.
  - exists [OnComplete "Summary completed!"; SetCurrentStep completed; SetProgress 100].
    simpl. by rewrite Hlog, <- !app_assoc.
  - intros status E1 E2 E3 E4.
    unfold on_status, nextStep, completion_of. rewrite E1, E2, E3, E4.
    exists [SetCurrentStep joining; SetProgress 10]. simpl. by rewrite <- app_assoc.
Qed.

Lemma on_status_fields h status s :
  currentStep (on_status h status s) = nextStep status ∧
  inflight (on_status h status s) = inflight s ∧
  clock (on_status h status s) = clock s.
Proof.
  destruct (clearInterval_fields h s) as (_ & Hin & _ & _ & Hclock).
  revert status. apply status_cases; try done.
  intros status E1 E2 E3 E4.
  unfold on_status, nextStep. by rewrite E1, E2, E3, E4.
Qed.

Lemma on_status_interval h status s :
  interval (on_status h status s) =
  if status_is status "completed" then interval (clearInterval h s) else interval s.
Proof.
  revert status. apply status_cases; try done.
  intros status E1 E2 E3 E4.
  unfold on_status. by rewrite E1, E2, E3, E4.
Qed.

(** ** One event *)

Lemma step_Elapse s dt s' :
  step s (Elapse dt) = Some s' →
  0 ≤ dt ∧ log s' = log s ∧ inflight s' = inflight s ∧ interval s' = interval s ∧
  currentStep s' = currentStep s ∧ progress s' = progress s ∧ clock s' = clock s + dt.
Proof.
  simpl. destruct (0 <=? dt) eqn:Hdt; simpl; [|done].
  destruct (match interval s with Some (_, due) => _ | None => _ end); [|done].
  intros [= <-]. simpl. repeat split; lia.
Qed.

Lemma step_TimerFire s s' :
  step s TimerFire = Some s' →
  ∃ h due,
    interval s = Some (h, due) ∧ clock s = due ∧
    log s' = log s ++ [GetStatus] ∧ inflight s' = inflight s ++ [h] ∧
    interval s' = Some (h, due + POLL_INTERVAL_MS) ∧
    currentStep s' = currentStep s ∧ progress s' = progress s ∧ clock s' = clock s.
Proof.
  simpl. destruct (interval s) as [[h due]|] eqn:Hi; [|done].
  destruct (clock s =? due) eqn:Hc; [|done].
  intros [= <-]. exists h, due. simpl. repeat split; try done. lia.
Qed.

Lemma step_Settle s k r s' :
  step s (Settle k r) = Some s' →
  ∃ h, inflight s !! k = Some h ∧
       s' = on_settled h r (with_inflight (delete k (inflight s)) s).
Proof.
  simpl. destruct (inflight s !! k) as [h|]; [|done].
  intros [= <-]. eauto.
Qed.

(** A request that fails leaves everything but the console as it was. *)
Lemma on_settled_failure h r s :
  ¬ returns (Api.getStatus r) →
  log (on_settled h r s) = log s ++ [ConsoleError] ∧
  currentStep (on_settled h r s) = currentStep s ∧
  progress (on_settled h r s) = progress s ∧
  interval (on_settled h r s) = interval s ∧
  inflight (on_settled h r s) = inflight s ∧
  clock (on_settled h r s) = clock s.
Proof.
  unfold on_settled, returns. intros Hfail.
  destruct (Api.getStatus r) as [status|err]; [|done].
  exfalso. apply Hfail. eauto.
Qed.

Lemma statuses_cons ev evs : statuses (ev :: evs) = statuses [ev] ++ statuses evs.
Proof.
  destruct ev as [open|dt| |k r]; simpl; try done.
  by destruct (Api.getStatus r).
Qed.

(** What one event of an open session adds to the log. *)
Lemma step_polling_log s ev s' :
  is_polling ev → step s ev = Some s' →
  steps_set (log s') = steps_set (log s) ++ (nextStep <$> statuses [ev]) ∧
  completions (log s') = completions (log s) ++ concat (completion_of <$> statuses [ev]) ∧
  currentStep s' = final_step (currentStep s) (statuses [ev]).
Proof.
  intros Hpoll Hstep. destruct ev as [open|dt| |k r]; [done| | |].
  - apply step_Elapse in Hstep as (_ & -> & _ & _ & -> & _). simpl.
    by rewrite !app_nil_r.
  - apply step_TimerFire in Hstep as (h & due & _ & _ & -> & _ & _ & -> & _).
    rewrite steps_set_app, completions_app. simpl. by rewrite !app_nil_r.
  - apply step_Settle in Hstep as (h & _ & ->).
    unfold on_settled. simpl. destruct (Api.getStatus r) as [status|err]; simpl.
    + destruct (on_status_log h status (with_inflight (delete k (inflight s)) s))
        as (added & -> & Hsteps & Hcompl & _).
      destruct (on_status_fields h status (with_inflight (delete k (inflight s)) s))
        as (-> & _).
      rewrite steps_set_app, completions_app, Hsteps, Hcompl. simpl.
      by rewrite app_nil_r.
    + rewrite steps_set_app, completions_app. simpl. by rewrite !app_nil_r.
Qed.

Lemma step_polling_own_requests s ev s' :
  is_polling ev → step s ev = Some s' → own_requests s → own_requests s'.
Proof.
  intros Hpoll Hstep Hown. destruct ev as [open|dt| |k r]; [done| | |].
  - apply step_Elapse in Hstep as (_ & _ & Hin & Hi & _).
    unfold own_requests. rewrite Hin, Hi. exact Hown.
  - apply step_TimerFire in Hstep as (h & due & Hi & _ & _ & Hin & Hi' & _).
    unfold own_requests. rewrite Hin, Hi'. intros h' due' [= <- <-].
    apply Forall_app. split; [by eapply Hown|]. by constructor.
  - apply step_Settle in Hstep as (h & Hk & ->).
    unfold own_requests, on_settled.
    destruct (Api.getStatus r) as [status|err]; simpl.
    + destruct (on_status_fields h status (with_inflight (delete k (inflight s)) s))
        as (_ & -> & _).
      rewrite on_status_interval. simpl.
      intros h' due' Hi'. apply Forall_delete.
      destruct (status_is status "completed"); [|by eapply Hown].
      unfold clearInterval in Hi'. simpl in Hi'.
      destruct (interval s) as [[h0 due0]|] eqn:Hi; simpl in Hi'; [|congruence].
      destruct (h0 =? h)%nat; simpl in Hi'; [done|].
      eapply Hown. exact Hi'.
    + intros h' due' Hi'. apply Forall_delete. by eapply Hown.
Qed.

(** A response that says [completed] stops the interval of an open
    session. *)
Lemma settle_completed_clears s k r s' :
  own_requests s → step s (Settle k r) = Some s' →
  Api.getStatus r = Ok (Some "completed") → interval s' = None.
Proof.
  intros Hown Hstep Hr. apply step_Settle in Hstep as (h & Hk & ->).
  unfold on_settled. rewrite Hr, on_status_interval. simpl.
  unfold clearInterval. simpl.
  destruct (interval s) as [[h0 due0]|] eqn:Hi; [|by simpl].
  assert (h = h0) as ->.
  { eapply (Forall_lookup_1 _ _ _ _ (Hown h0 due0 Hi) Hk). }
  by rewrite Nat.eqb_refl.
Qed.

(** ** Runs *)

Lemma run_cons s ev evs s' :
  run s (ev :: evs) = Some s' → ∃ s1, step s ev = Some s1 ∧ run s1 evs = Some s'.
Proof. simpl. destruct (step s ev) as [s1|]; [eauto|done]. Qed.

Lemma run_polling_log s evs s' :
  Forall (λ ev, is_polling ev) evs → run s evs = Some s' →
  steps_set (log s') = steps_set (log s) ++ (nextStep <$> statuses evs) ∧
  completions (log s') = completions (log s) ++ concat (completion_of <$> statuses evs) ∧
  currentStep s' = final_step (currentStep s) (statuses evs).
Proof.
  intros Hpoll. revert s.
  induction Hpoll as [|ev evs Hev Hevs IH]; intros s Hrun.
  - injection Hrun as <-. simpl. by rewrite !app_nil_r.
  - apply run_cons in Hrun as (s1 & Hstep & Hrun).
    destruct (step_polling_log _ _ _ Hev Hstep) as (Hs1 & Hc1 & Hcur1).
    destruct (IH _ Hrun) as (Hs & Hc & Hcur).
    rewrite statuses_cons, !fmap_app, concat_app.
    rewrite Hs, Hc, Hcur, Hs1, Hc1, Hcur1, <- !app_assoc.
    unfold final_step. by rewrite foldl_app.
Qed.

(** Without a running interval nothing issues a request, and each
    request in flight can be answered once. *)
Lemma step_idle s ev s' :
  is_polling ev → step s ev = Some s' → interval s = None →
  interval s' = None ∧
  polls_issued (log s') = polls_issued (log s) ∧
  (length (steps_set (log s')) + length (inflight s')
     ≤ length (steps_set (log s)) + length (inflight s))%nat ∧
  (length (completions (log s')) + length (inflight s')
     ≤ length (completions (log s)) + length (inflight s))%nat ∧
  (inflight s = [] →
     inflight s' = [] ∧ log s' = log s ∧
     currentStep s' = currentStep s ∧ progress s' = progress s).
Proof.
  intros Hpoll Hstep Hidle. destruct ev as [open|dt| |k r]; [done| | |].
  - apply step_Elapse in Hstep as (_ & -> & -> & -> & -> & -> & _). done.
  - apply step_TimerFire in Hstep as (h & due & Hi & _). congruence.
  - apply step_Settle in Hstep as (h & Hk & ->).
    assert (length (delete k (inflight s)) = length (inflight s) - 1)%nat as Hdel
      by by apply length_delete.
    assert (0 < length (inflight s))%nat as Hpos
      by (apply lookup_lt_Some in Hk; lia).
    split; [|split; [|split; [|split]]].
    + unfold on_settled. destruct (Api.getStatus r) as [status|err]; [|done].
      rewrite on_status_interval.
      destruct (status_is status "completed"); [|done].
      by apply clearInterval_None.
    + unfold on_settled. destruct (Api.getStatus r) as [status|err]; simpl.
      * destruct (on_status_log h status (with_inflight (delete k (inflight s)) s))
          as (added & -> & _ & _ & Hnone).
        rewrite polls_issued_app, Hnone. simpl. lia.
      * rewrite polls_issued_app. change (polls_issued [ConsoleError]) with 0%nat. lia.
    + unfold on_settled. destruct (Api.getStatus r) as [status|err]; simpl.
      * destruct (on_status_log h status (with_inflight (delete k (inflight s)) s))
          as (added & -> & Hsteps & _).
        destruct (on_status_fields h status (with_inflight (delete k (inflight s)) s))
          as (_ & -> & _).
        rewrite steps_set_app, length_app, Hsteps. simpl. lia.
      * rewrite steps_set_app, length_app. change (steps_set [ConsoleError]) with (@nil ProcessStep).
        simpl. lia.
    + unfold on_settled. destruct (Api.getStatus r) as [status|err]; simpl.
      * destruct (on_status_log h status (with_inflight (delete k (inflight s)) s))
          as (added & -> & _ & Hcompl & _).
        destruct (on_status_fields h status (with_inflight (delete k (inflight s)) s))
          as (_ & -> & _).
        rewrite completions_app, length_app, Hcompl. simpl.
        unfold completion_of. destruct (status_is status "completed"); simpl; lia.
      * rewrite completions_app, length_app. change (completions [ConsoleError]) with (@nil string).
        simpl. lia.
    + intros Hnil. rewrite Hnil in Hk. done.
Qed.

Lemma run_idle s evs s' :
  Forall (λ ev, is_polling ev) evs → run s evs = Some s' → interval s = None →
  interval s' = None ∧
  polls_issued (log s') = polls_issued (log s) ∧
  (length (steps_set (log s')) + length (inflight s')
     ≤ length (steps_set (log s)) + length (inflight s))%nat ∧
  (length (completions (log s')) + length (inflight s')
     ≤ length (completions (log s)) + length (inflight s))%nat ∧
  (inflight s = [] →
     inflight s' = [] ∧ log s' = log s ∧
     currentStep s' = currentStep s ∧ progress s' = progress s).
Proof.
  intros Hpoll. revert s.
  induction Hpoll as [|ev evs Hev Hevs IH]; intros s Hrun Hidle.
  - injection Hrun as <-. repeat split; done || lia.
  - apply run_cons in Hrun as (s1 & Hstep & Hrun).
    destruct (step_idle _ _ _ Hev Hstep Hidle) as (Hi1 & Hp1 & Hs1 & Hc1 & Hnil1).
    destruct (IH _ Hrun Hi1) as (Hi & Hp & Hs & Hc & Hnil).
    split; [done|]. split; [congruence|]. split; [lia|]. split; [lia|].
    intros Hempty. destruct (Hnil1 Hempty) as (Hin1 & Hl1 & Hcur1 & Hpr1).
    destruct (Hnil Hin1) as (Hin & Hl & Hcur & Hpr).
    repeat split; congruence.
Qed.

Lemma run_polling_completed s evs s' :
  Forall (λ ev, is_polling ev) evs → run s evs = Some s' → own_requests s →
  Some "completed" ∈ statuses evs → interval s' = None.
Proof.
  intros Hpoll. revert s.
  induction Hpoll as [|ev evs Hev Hevs IH]; intros s Hrun Hown Hin.
  - by apply elem_of_nil in Hin.
  - apply run_cons in Hrun as (s1 & Hstep & Hrun).
    rewrite statuses_cons in Hin. apply elem_of_app in Hin as [Hin|Hin].
    + destruct ev as [open|dt| |k r]; simpl in Hin;
        try by apply elem_of_nil in Hin.
      destruct (Api.getStatus r) as [status|err] eqn:Hr;
        [|by apply elem_of_nil in Hin].
      apply list_elem_of_singleton in Hin. subst status.
      pose proof (settle_completed_clears _ _ _ _ Hown Hstep Hr) as Hnone.
      by destruct (run_idle _ _ _ Hevs Hrun Hnone).
    + eapply IH; [done| |done]. by eapply step_polling_own_requests.
Qed.

(** A running interval ticks when it is due and is due again one
    period later. *)
Lemma next_tick s h due :
  interval s = Some (h, due) → clock s ≤ due →
  ∃ s1,
    run s [Elapse (due - clock s); TimerFire] = Some s1 ∧
    clock s1 = due ∧
    interval s1 = Some (h, due + POLL_INTERVAL_MS) ∧
    log s1 = log s ++ [GetStatus].
Proof.
  intros Hi Hclock. simpl. rewrite Hi.
  destruct (Z.leb_spec 0 (due - clock s)); [|lia].
  destruct (Z.leb_spec (clock s + (due - clock s)) due); [|lia].
  simpl.
  destruct (Z.eqb_spec (clock s + (due - clock s)) due); [|lia].
  eexists. split; [reflexivity|]. simpl. repeat split. lia.
Qed.

(** ** The claims on the polling *)

(** C1, as the code has it. The modal is mounted, then opened, and stays
    open with no render that changes [isOpen] or [onComplete]. Whenever the
    statuses that arrive are [not started], [Transcription],
    [summary generation], [completed], in that order (requests that
    fail may lie in between), the stages are joining, joined, ended,
    generating, completed in that order, [onComplete] is called
    exactly once, the interval is stopped, and whatever happens next
    while the modal stays as it is no further request is issued. *)
Theorem four_statuses_reach_completed
    (now : Z) (evs : list Event) (s : State) :
  Forall (λ ev, is_polling ev) evs →
  statuses evs =
    [Some "not started"; Some "Transcription"; Some "summary generation";
     Some "completed"] →
  run (mount now) (Props true :: evs) = Some s →
  stage_history (mount now) s = [joining; joined; ended; generating; completed] ∧
  currentStep s = completed ∧
  completions (log s) = ["Summary completed!"] ∧
  interval s = None ∧
  ∀ evs' s', Forall (λ ev, is_polling ev) evs' → run s evs' = Some s' →
             polls_issued (log s') = polls_issued (log s).
Proof.
  intros Hpoll Hst Hrun.
  apply run_cons in Hrun as (s0 & Hopen & Hrun). injection Hopen as <-.
  destruct (run_polling_log _ _ _ Hpoll Hrun) as (Hsteps & Hcompl & Hcur).
  rewrite Hst in Hsteps, Hcompl, Hcur.
  assert (interval s = None) as Hnone.
  { eapply run_polling_completed; [exact Hpoll|exact Hrun| |].
    - intros h due _. simpl. constructor.
    - rewrite Hst. do 3 right. left. }
  split; [unfold stage_history; by rewrite Hsteps|].
  split; [by rewrite Hcur|]. split; [by rewrite Hcompl|]. split; [exact Hnone|].
  intros evs' s' Hpoll' Hrun'.
  by destruct (run_idle _ _ _ Hpoll' Hrun' Hnone) as (_ & Hp & _).
Qed.

(** The theorem on one poll every ten seconds. *)
Lemma four_statuses_reach_completed_witness :
  ∃ s, run (mount 0) (Props true :: four_polls) = Some s ∧
       stage_history (mount 0) s = [joining; joined; ended; generating; completed] ∧
       completions (log s) = ["Summary completed!"] ∧
       interval s = None ∧
       polls_issued (log s) = 4%nat.
Proof.
  destruct (run (mount 0) (Props true :: four_polls)) as [s|] eqn:Hrun;
    [|by vm_compute in Hrun].
  exists s. split; [reflexivity|].
  destruct (four_statuses_reach_completed 0 four_polls s)
    as (Hhist & _ & Hcompl & Hnone & _).
  - unfold four_polls. repeat constructor.
  - reflexivity.
  - exact Hrun.
  - repeat split; try assumption.
    vm_compute in Hrun. injection Hrun as <-. reflexivity.
Defined.

(** C1 as it is stated fails in two ways. The component is mounted once
    and keeps its stage while it is closed, so a second session on the
    same page starts at completed, not at joining. And a response that
    arrives after the parent rendered with a new [onComplete] clears the
    interval of its own closure, not the one that is running: the stage
    reaches completed and the next request is issued all the same. *)
Lemma later_session_or_render_breaks_the_order :
  (∃ s1 s2,
     run (mount 0) (Props true :: four_polls ++ [Props false]) = Some s1 ∧
     run s1 (Props true :: four_polls) = Some s2 ∧
     stages_since s1 s2 = [completed; joined; ended; generating; completed] ∧
     stages_since s1 s2 ≠ [joining; joined; ended; generating; completed]) ∧
  (∃ s s',
     run (mount 0) (Props true :: render_before_last_response) = Some s ∧
     statuses render_before_last_response =
       [Some "not started"; Some "Transcription"; Some "summary generation";
        Some "completed"] ∧
     currentStep s = completed ∧
     run s [Elapse 10000; TimerFire] = Some s' ∧
     polls_issued (log s') = S (polls_issued (log s))).
Proof.
  split.
  - destruct (run (mount 0) (Props true :: four_polls ++ [Props false]))
      as [s1|] eqn:Hs1; [|by vm_compute in Hs1].
    destruct (run s1 (Props true :: four_polls)) as [s2|] eqn:Hs2.
    + exists s1, s2. split; [reflexivity|]. split; [exact Hs2|].
      vm_compute in Hs1. injection Hs1 as <-.
      vm_compute in Hs2. injection Hs2 as <-.
      split; [reflexivity|discriminate].
    + vm_compute in Hs1. injection Hs1 as <-. by vm_compute in Hs2.
  - destruct (run (mount 0) (Props true :: render_before_last_response))
      as [s|] eqn:Hs; [|by vm_compute in Hs].
    destruct (run s [Elapse 10000; TimerFire]) as [s'|] eqn:Hs'.
    + exists s, s'. split; [reflexivity|]. split; [reflexivity|].
      vm_compute in Hs. injection Hs as <-.
      vm_compute in Hs'. injection Hs' as <-.
      split; reflexivity || (split; reflexivity).
    + vm_compute in Hs. injection Hs as <-. by vm_compute in Hs'.
Qed.

(** C2, as the code has it. Once the modal is closed no request is
    issued any more. A response can still change the stage or call
    [onComplete], but only the response to a request that was in flight
    when the modal was closed, and each such request at most once; with
    no request in flight nothing is set or called again. The component
    has no [onError] callback. *)
Theorem cancellation_stops_polling
    (s s0 s' : State) (evs : list Event) :
  step s (Props false) = Some s0 →
  Forall (λ ev, is_polling ev) evs →
  run s0 evs = Some s' →
  polls_issued (log s') = polls_issued (log s0) ∧
  (length (steps_set (log s')) ≤ length (steps_set (log s0)) + length (inflight s0))%nat ∧
  (length (completions (log s')) ≤ length (completions (log s0)) + length (inflight s0))%nat ∧
  (inflight s0 = [] →
     log s' = log s0 ∧ currentStep s' = currentStep s0 ∧ progress s' = progress s0).
Proof.
  intros Hclose Hpoll Hrun. injection Hclose as <-.
  destruct (run_idle _ _ _ Hpoll Hrun) as (_ & Hp & Hs & Hc & Hnil); [reflexivity|].
  split; [exact Hp|]. split; [lia|]. split; [lia|].
  intros Hempty. by destruct (Hnil Hempty) as (_ & ? & ? & ?).
Qed.

(** The theorem on a modal closed while a request is in flight, and the
    ticks and the failed response that follow. *)
Lemma cancellation_stops_polling_witness :
  ∃ s s0 s',
    run (mount 0) joined_and_polling = Some s ∧
    step s (Props false) = Some s0 ∧
    run s0 [Elapse 20000; Settle 0 Rejected; Elapse 20000] = Some s' ∧
    polls_issued (log s') = polls_issued (log s0) ∧
    (length (steps_set (log s')) ≤ length (steps_set (log s0)) + 1)%nat.
Proof.
  destruct (run (mount 0) joined_and_polling) as [s|] eqn:Hs;
    [|by vm_compute in Hs].
  destruct (step s (Props false)) as [s0|] eqn:Hs0; [|done].
  destruct (run s0 [Elapse 20000; Settle 0 Rejected; Elapse 20000]) as [s'|] eqn:Hs'.
  - exists s, s0, s'. split; [reflexivity|]. split; [exact Hs0|]. split; [exact Hs'|].
    destruct (cancellation_stops_polling s s0 s'
                [Elapse 20000; Settle 0 Rejected; Elapse 20000])
      as (Hp & Hsteps & _); [exact Hs0|repeat constructor|exact Hs'|].
    split; [exact Hp|].
    vm_compute in Hs. injection Hs as <-.
    vm_compute in Hs0. injection Hs0 as <-.
    exact Hsteps.
  - vm_compute in Hs. injection Hs as <-.
    vm_compute in Hs0. injection Hs0 as <-.
    by vm_compute in Hs'.
Defined.

(** C2 as it is stated fails when a request is in flight at the moment
    the modal is closed: its response still sets the stage, and when it
    says [completed] it still calls [onComplete]. *)
Lemma inflight_response_lands_after_cancel :
  ∃ s s0 s1 s2,
    run (mount 0) joined_and_polling = Some s ∧
    step s (Props false) = Some s0 ∧
    currentStep s0 = joined ∧ completions (log s0) = [] ∧
    run s0 [Settle 0 (ok_status "Transcription")] = Some s1 ∧
    currentStep s1 = ended ∧
    steps_set (log s1) = steps_set (log s0) ++ [ended] ∧
    run s0 [Settle 0 (ok_status "completed")] = Some s2 ∧
    currentStep s2 = completed ∧
    completions (log s2) = ["Summary completed!"].
Proof. do 4 eexists. vm_compute. repeat split. Qed.

(** C7. A request that fails leaves the stage, the progress and the
    calls of [setCurrentStep] and [onComplete] as they were, and leaves
    the interval running with its next callback at the time it was due
    before: the callback runs at that time and issues a request, and
    the one after it runs [POLL_INTERVAL_MS] = 10000 ms later. *)
Theorem failed_poll_keeps_stage_and_schedule
    (s s' : State) (k : nat) (r : FetchOutcome JsonBody) (h : nat) (due : Z) :
  ¬ returns (Api.getStatus r) →
  interval s = Some (h, due) →
  clock s ≤ due →
  step s (Settle k r) = Some s' →
  currentStep s' = currentStep s ∧
  progress s' = progress s ∧
  steps_set (log s') = steps_set (log s) ∧
  completions (log s') = completions (log s) ∧
  interval s' = Some (h, due) ∧
  ∃ s1 s2,
    run s' [Elapse (due - clock s'); TimerFire] = Some s1 ∧
    clock s1 = due ∧
    polls_issued (log s1) = S (polls_issued (log s')) ∧
    run s1 [Elapse POLL_INTERVAL_MS; TimerFire] = Some s2 ∧
    clock s2 = due + POLL_INTERVAL_MS ∧
    polls_issued (log s2) = S (S (polls_issued (log s'))).
Proof.
  intros Hfail Hi Hclock Hstep.
  apply step_Settle in Hstep as (h0 & Hk & ->).
  destruct (on_settled_failure h0 r (with_inflight (delete k (inflight s)) s) Hfail)
    as (Hlog & Hcur & Hpr & Hint & Hin & Hcl).
  set (s' := on_settled h0 r (with_inflight (delete k (inflight s)) s)) in *.
  simpl in Hcur, Hpr, Hint, Hcl, Hlog.
  split; [exact Hcur|]. split; [exact Hpr|].
  split; [by rewrite Hlog, steps_set_app, app_nil_r|].
  split; [by rewrite Hlog, completions_app, app_nil_r|].
  split; [by rewrite Hint|].
  destruct (next_tick s' h due) as (s1 & Hrun1 & Hcl1 & Hint1 & Hlog1);
    [by rewrite Hint|lia|].
  destruct (next_tick s1 h (due + POLL_INTERVAL_MS)) as (s2 & Hrun2 & Hcl2 & _ & Hlog2);
    [exact Hint1|unfold POLL_INTERVAL_MS; lia|].
  replace (due + POLL_INTERVAL_MS - clock s1) with POLL_INTERVAL_MS in Hrun2 by lia.
  exists s1, s2.
  split; [exact Hrun1|]. split; [exact Hcl1|].
  split; [by rewrite Hlog1, polls_issued_app, Nat.add_1_r|].
  split; [exact Hrun2|]. split; [exact Hcl2|].
  by rewrite Hlog2, Hlog1, !polls_issued_app, !Nat.add_1_r.
Qed.

(** The theorem on the first request of a session, which gets no
    response at all. *)
Lemma failed_poll_keeps_stage_and_schedule_witness :
  ∃ s s',
    run (mount 0) [Props true; Elapse 10000; TimerFire; Elapse 3000] = Some s ∧
    step s (Settle 0 Rejected) = Some s' ∧
    currentStep s' = joining ∧
    interval s' = Some (0%nat, 20000) ∧
    ∃ s1, run s' [Elapse 7000; TimerFire] = Some s1 ∧ clock s1 = 20000.
Proof.
  destruct (run (mount 0) [Props true; Elapse 10000; TimerFire; Elapse 3000])
    as [s|] eqn:Hs; [|by vm_compute in Hs].
  destruct (step s (Settle 0 Rejected)) as [s'|] eqn:Hs'.
  - exists s, s'. split; [reflexivity|]. split; [exact Hs'|].
    destruct (failed_poll_keeps_stage_and_schedule s s' 0 Rejected 0 20000)
      as (Hcur & _ & _ & _ & Hint & s1 & _ & Hrun & Hcl & _).
    + intros [st Hst]. discriminate Hst.
    + vm_compute in Hs. injection Hs as <-. reflexivity.
    + vm_compute in Hs. injection Hs as <-. simpl. lia.
    + exact Hs'.
    + vm_compute in Hs. injection Hs as <-.
      vm_compute in Hs'. injection Hs' as <-.
      split; [exact Hcur|]. split; [exact Hint|].
      exists s1. split; [exact Hrun|exact Hcl].
  - vm_compute in Hs. injection Hs as <-. by vm_compute in Hs'.
Defined.

End PollingFacts.

(* ===================================================================== *)
(** * Properties of [trim] and of the regular expression matcher          *)
(* ===================================================================== *)

Module TextFacts.
Import Js Net Text.

(** ** Append and reverse *)

Lemma append_nil_l s : "" +:+ s = s.
Proof. reflexivity. Qed.

Lemma append_cons c s1 s2 : String c s1 +:+ s2 = String c (s1 +:+ s2).
Proof. reflexivity. Qed.

Lemma append_nil_r s : s +:+ "" = s.
Proof. induction s as [|c s IH]; [done|]. by rewrite append_cons, IH. Qed.

Lemma append_assoc s1 s2 s3 : (s1 +:+ s2) +:+ s3 = s1 +:+ (s2 +:+ s3).
Proof. induction s1 as [|c s1 IH]; [done|]. by rewrite !append_cons, IH. Qed.

Lemma string_rev_acc s acc : string_rev s acc = srev s +:+ acc.
Proof.
  unfold srev. revert acc. induction s as [|c s IH]; intros acc; simpl; [done|].
  by rewrite (IH (String c acc)), (IH (String c "")), append_assoc.
Qed.

Lemma srev_cons c s : srev (String c s) = srev s +:+ String c "".
Proof. unfold srev at 1. simpl. apply string_rev_acc. Qed.

Lemma srev_app s1 s2 : srev (s1 +:+ s2) = srev s2 +:+ srev s1.
Proof.
  induction s1 as [|c s1 IH].
  - by rewrite append_nil_l, append_nil_r.
  - by rewrite append_cons, !srev_cons, IH, append_assoc.
Qed.

Lemma srev_involutive s : srev (srev s) = s.
Proof.
  induction s as [|c s IH]; [done|].
  by rewrite srev_cons, srev_app, IH.
Qed.

Lemma forallb_string_app p s1 s2 :
  forallb_string p (s1 +:+ s2) = forallb_string p s1 && forallb_string p s2.
Proof.
  induction s1 as [|c s1 IH]; [done|].
  rewrite append_cons. simpl. by rewrite IH, andb_assoc.
Qed.

Lemma forallb_string_srev p s : forallb_string p (srev s) = forallb_string p s.
Proof.
  induction s as [|c s IH]; [done|].
  rewrite srev_cons, forallb_string_app, IH. simpl.
  by rewrite andb_true_r, andb_comm.
Qed.

(** ** [trim] *)

Lemma trimStart_head s :
  trimStart s = "" ∨ ∃ c r, trimStart s = String c r ∧ is_whitespace c = false.
Proof.
  induction s as [|c s IH]; simpl; [by left|].
  destruct (is_whitespace c) eqn:Hc; [exact IH|]. right. eauto.
Qed.

Lemma trimStart_snoc s c :
  is_whitespace c = false → ∃ r, trimStart (s +:+ String c "") = r +:+ String c "".
Proof.
  intros Hc. induction s as [|d s IH].
  - rewrite append_nil_l. simpl. rewrite Hc. by exists "".
  - rewrite append_cons. simpl.
    destruct (is_whitespace d); [exact IH|]. by exists (String d s).
Qed.

Lemma trimEnd_unfold s : trimEnd s = srev (trimStart (srev s)).
Proof. reflexivity. Qed.

Lemma trimEnd_head c s :
  is_whitespace c = false → ∃ r, trimEnd (String c s) = String c r.
Proof.
  intros Hc. rewrite trimEnd_unfold, srev_cons.
  destruct (trimStart_snoc (srev s) c Hc) as [r ->].
  rewrite srev_app. by exists (srev r).
Qed.

Lemma trimStart_idemp s : trimStart (trimStart s) = trimStart s.
Proof.
  destruct (trimStart_head s) as [->|(c & r & -> & Hc)]; [done|].
  simpl. by rewrite Hc.
Qed.

Lemma trimEnd_idemp s : trimEnd (trimEnd s) = trimEnd s.
Proof. by rewrite !trimEnd_unfold, srev_involutive, trimStart_idemp. Qed.

(** Trimming twice is trimming once. *)
Lemma trim_idemp s : trim (trim s) = trim s.
Proof.
  unfold trim.
  destruct (trimStart_head s) as [->|(c & r & -> & Hc)]; [done|].
  destruct (trimEnd_head c r Hc) as [r' Hr'].
  assert (trimStart (trimEnd (String c r)) = trimEnd (String c r)) as ->
    by (rewrite Hr'; simpl; by rewrite Hc).
  apply trimEnd_idemp.
Qed.

Lemma trim_trimmed s : trimmed (trim s).
Proof. apply trim_idemp. Qed.

(** What [trim] returns is empty or starts with a character that is not
    white space. *)
Lemma trim_head s :
  trim s = "" ∨ ∃ c r, trim s = String c r ∧ is_whitespace c = false.
Proof.
  unfold trim.
  destruct (trimStart_head s) as [->|(c & r & -> & Hc)]; [by left|].
  destruct (trimEnd_head c r Hc) as [r' ->]. right. eauto.
Qed.

Lemma trimStart_no_whitespace s : no_whitespace s → trimStart s = s.
Proof.
  unfold no_whitespace. destruct s as [|c s]; simpl; [done|].
  intros H. apply andb_true_iff in H as [Hc _].
  apply negb_true_iff in Hc. by rewrite Hc.
Qed.

(** A string without white space is trimmed. *)
Lemma no_whitespace_trimmed s : no_whitespace s → trimmed s.
Proof.
  intros H. unfold trimmed, trim. rewrite (trimStart_no_whitespace s H).
  rewrite trimEnd_unfold, trimStart_no_whitespace, srev_involutive; [done|].
  unfold no_whitespace. by rewrite forallb_string_srev.
Qed.

(** ** The matcher *)

Lemma append_eq_nil s1 s2 : s1 +:+ s2 = "" → s1 = "" ∧ s2 = "".
Proof. destruct s1; [done|]. rewrite append_cons. discriminate. Qed.

Lemma nullable_matches r : nullable r = true ↔ matches r "".
Proof.
  split.
  - induction r as [| |p|r1 IH1 r2 IH2|r1 IH1 r2 IH2|r IH]; simpl; intros H;
      try discriminate.
    + constructor.
    + apply andb_true_iff in H as [H1 H2].
      change "" with ("" +:+ ""). constructor; auto.
    + apply orb_true_iff in H as [H|H]; [apply MAltL|apply MAltR]; auto.
    + constructor.
  - intros H. remember "" as s eqn:Hs.
    induction H as [|p c Hp|r1 r2 s1 s2 H1 IH1 H2 IH2|r1 r2 s H IH|r1 r2 s H IH| |
                    r s1 s2 H1 IH1 H2 IH2]; simpl; try done.
    + apply append_eq_nil in Hs as [-> ->]. by rewrite IH1, IH2.
    + by rewrite IH.
    + rewrite IH by done. apply orb_true_r.
Qed.

Lemma deriv_sound c r s : matches (deriv c r) s → matches r (String c s).
Proof.
  revert s. induction r as [| |p|r1 IH1 r2 IH2|r1 IH1 r2 IH2|r IH]; simpl; intros s H.
  - inversion H.
  - inversion H.
  - destruct (p c) eqn:Hp; inversion H; subst. by constructor.
  - assert (∀ s, matches (Seq (deriv c r1) r2) s → matches (Seq r1 r2) (String c s))
      as Hseq.
    { intros s' H'. inversion H' as [| |? ? s1 s2 Ha Hb| | | |]; subst.
      change (String c (s1 +:+ s2)) with (String c s1 +:+ s2). constructor; auto. }
    destruct (nullable r1) eqn:Hn; [|by apply Hseq].
    inversion H; subst; [by apply Hseq|].
    change (String c s) with ("" +:+ String c s).
    constructor; [by apply nullable_matches|auto].
  - inversion H; subst; [apply MAltL|apply MAltR]; auto.
  - inversion H as [| |? ? s1 s2 Ha Hb| | | |]; subst.
    change (String c (s1 +:+ s2)) with (String c s1 +:+ s2). constructor; auto.
Qed.

Lemma deriv_complete c r s : matches r (String c s) → matches (deriv c r) s.
Proof.
  intros H. remember (String c s) as x eqn:Hx. revert s Hx.
  induction H as [|p d Hp|r1 r2 s1 s2 H1 IH1 H2 IH2|r1 r2 x H IH|r1 r2 x H IH| |
                  r s1 s2 H1 IH1 H2 IH2]; intros s Hx; simpl.
  - discriminate.
  - injection Hx as -> <-. rewrite Hp. constructor.
  - destruct s1 as [|d s1']; [rewrite append_nil_l in Hx|rewrite append_cons in Hx].
    + subst s2. apply nullable_matches in H1. rewrite H1. apply MAltR. by apply IH2.
    + injection Hx as -> <-.
      assert (matches (Seq (deriv c r1) r2) (s1' +:+ s2)) as Hseq
        by (constructor; [by apply IH1|done]).
      destruct (nullable r1); [by apply MAltL|done].
  - apply MAltL. by apply IH.
  - apply MAltR. by apply IH.
  - discriminate.
  - destruct s1 as [|d s1']; [rewrite append_nil_l in Hx|rewrite append_cons in Hx].
    + by apply IH2.
    + injection Hx as -> <-. constructor; [by apply IH1|done].
Qed.

(** The matcher decides the language of the expression. *)
Lemma test_anchored_matches r s : test_anchored r s = true ↔ matches r s.
Proof.
  revert r. induction s as [|c s IH]; intros r; simpl.
  - apply nullable_matches.
  - rewrite IH. split; [apply deriv_sound|apply deriv_complete].
Qed.

Lemma matches_class p s : matches (Class p) s ↔ ∃ c, s = String c "" ∧ p c = true.
Proof.
  split.
  - intros H. inversion H; subst. eauto.
  - intros (c & -> & Hp). by constructor.
Qed.

Lemma matches_seq r1 r2 s :
  matches (Seq r1 r2) s ↔ ∃ s1 s2, s = s1 +:+ s2 ∧ matches r1 s1 ∧ matches r2 s2.
Proof.
  split.
  - intros H. inversion H; subst. eauto.
  - intros (s1 & s2 & -> & H1 & H2). by constructor.
Qed.

Lemma matches_star_class p s :
  matches (Star (Class p)) s ↔ forallb_string p s = true.
Proof.
  split.
  - intros H. remember (Star (Class p)) as r eqn:Hr.
    induction H as [| | | | | |r s1 s2 H1 IH1 H2 IH2]; try discriminate; [done|].
    injection Hr as ->. apply matches_class in H1 as (c & -> & Hp).
    rewrite append_cons, append_nil_l. simpl. rewrite Hp. by apply IH2.
  - induction s as [|c s IH]; simpl; intros H; [constructor|].
    apply andb_true_iff in H as [Hc Hs].
    change (String c s) with (String c "" +:+ s).
    constructor; [by constructor|auto].
Qed.

Lemma matches_plus_class p s :
  matches (Plus (Class p)) s ↔ s ≠ "" ∧ forallb_string p s = true.
Proof.
  unfold Plus. rewrite matches_seq. split.
  - intros (s1 & s2 & -> & H1 & H2).
    apply matches_class in H1 as (c & -> & Hp). apply matches_star_class in H2.
    rewrite append_cons, append_nil_l. simpl. by rewrite Hp, H2.
  - destruct s as [|c s]; intros [Hne H]; [done|]. simpl in H.
    apply andb_true_iff in H as [Hc Hs].
    exists (String c ""), s. split; [done|].
    split; [by constructor|by apply matches_star_class].
Qed.

End TextFacts.

(* ===================================================================== *)
(** * More on the store: the user, and what a save keeps                  *)
(* ===================================================================== *)

Module HistoryFacts.
Import Js Storage Text History StorageFacts TextFacts.

Lemma same_key_key_of a b : same_key a b ↔ key_of a = key_of b.
Proof.
  unfold same_key, key_of. split.
  - by intros [-> ->].
  - intros [= -> ->]. done.
Qed.

Lemma history_saveMeeting ls t e env :
  ∃ ls',
    saveMeeting ls t e env = Ok ls' ∧
    meetgenai_user ls' = meetgenai_user ls ∧
    history ls' =
      push (record_of (stored_user (meetgenai_user ls))
              {| call_title := t; call_email := e; call_env := env |})
           (history ls).
Proof. rewrite saveMeeting_eq. eexists. done. Qed.

Lemma push_unfold new l :
  push new l = new :: take 9 (filter (λ m, ¬ same_key m new) l).
Proof. reflexivity. Qed.

(** ** The user *)

(** X1. What [saveUser] stores is what [getUser] returns: the trimmed
    name with the time of the call, whatever was stored under the user
    key before (nothing, another user, a text that is not JSON); then
    [hasUser] is true, and the meeting history is untouched. *)
Theorem saveUser_getUser (ls : LocalStorage) (n : string) (now : Z) :
  getUser (saveUser ls n now) = Ok (Some {| name := trim n; userSavedAt := now |}) ∧
  hasUser (saveUser ls n now) = Ok true ∧
  getMeetings (saveUser ls n now) = getMeetings ls.
Proof. done. Qed.

(** X2. After [clearUser] there is no user: [getUser] returns [null] and
    [hasUser] is false, whatever was stored; the meeting history is
    untouched, and a saved user is gone. *)
Theorem clearUser_forgets (ls : LocalStorage) (n : string) (now : Z) :
  getUser (clearUser ls) = Ok None ∧
  hasUser (clearUser ls) = Ok false ∧
  getMeetings (clearUser ls) = getMeetings ls ∧
  getUser (clearUser (saveUser ls n now)) = Ok None.
Proof. done. Qed.

(** X3. A meeting saved after [saveUser] carries the name of that user,
    trimmed; a meeting saved after [clearUser] carries none. *)
Theorem saveMeeting_tags_user
    (ls : LocalStorage) (n t e : string) (now : Z) (env : Env) :
  (∃ ls' m rest,
     saveMeeting (saveUser ls n now) t e env = Ok ls' ∧
     getMeetings ls' = Ok (m :: rest) ∧ userName m = Some (trim n)) ∧
  (∃ ls' m rest,
     saveMeeting (clearUser ls) t e env = Ok ls' ∧
     getMeetings ls' = Ok (m :: rest) ∧ userName m = None).
Proof.
  split.
  - destruct (history_saveMeeting (saveUser ls n now) t e env) as (ls' & Hs & _ & Hh).
    rewrite push_unfold in Hh. exists ls'. do 2 eexists.
    split; [exact Hs|]. rewrite getMeetings_eq. fold (history ls'). rewrite Hh. done.
  - destruct (history_saveMeeting (clearUser ls) t e env) as (ls' & Hs & _ & Hh).
    rewrite push_unfold in Hh. exists ls'. do 2 eexists.
    split; [exact Hs|]. rewrite getMeetings_eq. fold (history ls'). rewrite Hh. done.
Qed.

(** ** What a save keeps *)

(** Saving a pair and then a pair with the same trimmed key is saving the
    second pair alone. *)
Lemma push_absorbs r1 r2 l :
  same_key r1 r2 → push r2 (push r1 l) = push r2 l.
Proof.
  intros Hk. rewrite (push_unfold r1), !(push_unfold r2).
  rewrite filter_cons_False by (intros Hn; by apply Hn).
  assert (∀ m, ¬ same_key m r2 ↔ ¬ same_key m r1) as Hiff.
  { intros m. rewrite !same_key_key_of.
    apply same_key_key_of in Hk. by rewrite Hk. }
  rewrite (list_filter_iff _ _ l Hiff).
  rewrite (list_filter_iff _ _ (take 9 _) Hiff).
  rewrite filter_all.
  - by rewrite take_take.
  - apply Forall_take, Forall_forall. intros m Hm.
    by apply list_elem_of_filter in Hm as [? _].
Qed.

(** X5. Two saves in a row whose titles and emails agree after trimming
    leave the store the second save alone would leave: the first save
    is absorbed. *)
Theorem saveMeeting_absorbs_previous
    (ls : LocalStorage) (c1 c2 : SaveCall) :
  call_key c1 = call_key c2 →
  (ls1 ← saveMeeting ls (call_title c1) (call_email c1) (call_env c1);
   saveMeeting ls1 (call_title c2) (call_email c2) (call_env c2)) =
  saveMeeting ls (call_title c2) (call_email c2) (call_env c2).
Proof.
  intros Hk. rewrite !saveMeeting_eq. simpl. rewrite saveMeeting_eq. simpl.
  rewrite setItem_meetings_twice. do 3 f_equal.
  destruct c1, c2. apply push_absorbs. by apply same_key_record_of.
Qed.

(** The theorem on a title typed with and without a trailing space. *)
Lemma saveMeeting_absorbs_previous_witness :
  (ls1 ← saveMeeting empty_storage "Standup " "a@b.com" (env_at 1001);
   saveMeeting ls1 "Standup" "a@b.com" (env_at 1002)) =
  saveMeeting empty_storage "Standup" "a@b.com" (env_at 1002).
Proof.
  apply (saveMeeting_absorbs_previous empty_storage
           (call "Standup " "a@b.com" 1001) (call "Standup" "a@b.com" 1002)).
  reflexivity.
Defined.

(** ** The shape of the history *)

Lemma tidy_nil : tidy [].
Proof. split; [constructor|]. split; [simpl; lia|constructor]. Qed.

Lemma tidy_push new l :
  trimmed (title new) → trimmed (email new) → tidy l → tidy (push new l).
Proof.
  intros Ht He (Hnd & _ & Htr). rewrite push_unfold.
  set (rest := take 9 (filter (λ m, ¬ same_key m new) l)).
  assert (rest `sublist_of` l) as Hsub
    by (etrans; [apply sublist_take|apply sublist_filter]).
  split; [|split].
  - rewrite fmap_cons. apply NoDup_cons. split.
    + intros Hin. apply list_elem_of_fmap in Hin as (m & Hk & Hm).
      apply (elem_of_take) in Hm as (i & Hm & _).
      apply list_elem_of_lookup_2 in Hm.
      apply list_elem_of_filter in Hm as [Hne _].
      apply Hne. by apply same_key_key_of.
    + eapply sublist_NoDup; [exact Hnd|]. by apply fmap_sublist.
  - simpl. unfold rest. rewrite length_take. lia.
  - constructor; [done|].
    apply Forall_forall. intros m Hm.
    eapply Forall_forall in Htr; [exact Htr|]. by eapply elem_of_sublist.
Qed.

(** X6. A tidy history stays tidy: when the stored records have pairwise
    different (title, email) keys, are at most ten and have trimmed
    titles and emails, the same holds after any sequence of saves. It
    holds for every sequence of saves into a store that had no readable
    history. *)
Theorem saveMeetings_keep_history_tidy (ls : LocalStorage) (calls : list SaveCall) :
  tidy (history ls) →
  ∃ ls', saveMeetings ls calls = Ok ls' ∧
         meetgenai_user ls' = meetgenai_user ls ∧
         tidy (history ls').
Proof.
  revert ls. induction calls as [|c calls IH]; intros ls Htidy; simpl.
  - eauto.
  - destruct (history_saveMeeting ls (call_title c) (call_email c) (call_env c))
      as (ls1 & -> & Hu & Hh). simpl.
    destruct (IH ls1) as (ls' & Hs & Hu' & Ht').
    + rewrite Hh. apply tidy_push; [apply trim_trimmed|apply trim_trimmed|done].
    + exists ls'. split; [done|]. split; [congruence|done].
Qed.

(** The theorem on a store whose history was not JSON. *)
Lemma saveMeetings_keep_history_tidy_witness :
  ∃ ls', saveMeetings {| meetgenai_user := None; meetgenai_meetings := Some Malformed |}
           eleven_padded_calls = Ok ls' ∧
         tidy (history ls').
Proof.
  destruct (saveMeetings_keep_history_tidy
              {| meetgenai_user := None; meetgenai_meetings := Some Malformed |}
              eleven_padded_calls) as (ls' & Hs & _ & Ht).
  - apply tidy_nil.
  - eauto.
Defined.

(** In a list without two records of one key, the records with another
    key than [m] are all but [m]. *)
Lemma keys_without m l :
  NoDup (key_of <$> l) → m ∈ l →
  key_of <$> l ≡ₚ key_of m :: (key_of <$> filter (λ r, ¬ same_key r m) l).
Proof.
  induction l as [|x l IH]; intros Hnd Hin; [by apply elem_of_nil in Hin|].
  rewrite fmap_cons in Hnd. apply NoDup_cons in Hnd as [Hx Hnd].
  destruct (decide (key_of x = key_of m)) as [Heq|Hne].
  - rewrite filter_cons_False
      by (intros Hn; apply Hn; by apply same_key_key_of).
    rewrite filter_all; [by rewrite fmap_cons, Heq|].
    apply Forall_forall. intros r Hr Hsame. apply Hx.
    apply same_key_key_of in Hsame. rewrite Heq, <- Hsame.
    by apply list_elem_of_fmap_2.
  - apply elem_of_cons in Hin as [->|Hin]; [done|].
    rewrite filter_cons_True by (rewrite same_key_key_of; done).
    rewrite !fmap_cons, (IH Hnd Hin). apply Permutation_swap.
Qed.

(** A save under a stored key of a tidy history replaces one record. *)
Lemma history_resave (ls ls' : LocalStorage) (m : StoredMeeting) (env : Env) :
  tidy (history ls) → m ∈ history ls →
  saveMeeting ls (title m) (email m) env = Ok ls' →
  ∃ m' rest,
    history ls' = m' :: rest ∧
    key_of m' = key_of m ∧
    savedAt m' = now_savedAt env ∧
    length (m' :: rest) = length (history ls) ∧
    key_of <$> (m' :: rest) ≡ₚ key_of <$> history ls.
Proof.
  intros (Hnd & Hlen & Htr) Hin Hsave.
  destruct (history_saveMeeting ls (title m) (email m) env) as (ls2 & Hs & _ & Hh).
  rewrite Hsave in Hs. injection Hs as <-.
  rewrite push_unfold in Hh.
  eapply Forall_forall in Htr as [Ht He]; [|exact Hin].
  set (new := record_of _ _) in Hh.
  assert (key_of new = key_of m) as Hk by (unfold key_of; simpl; by rewrite Ht, He).
  assert (∀ r, ¬ same_key r new ↔ ¬ same_key r m) as Hiff
    by (intros r; by rewrite !same_key_key_of, Hk).
  rewrite (list_filter_iff _ _ _ Hiff) in Hh.
  pose proof (keys_without m (history ls) Hnd Hin) as Hperm.
  assert (length (filter (λ r, ¬ same_key r m) (history ls)) ≤ 9)%nat as Hshort.
  { apply Permutation_length in Hperm. simpl in Hperm.
    rewrite !length_fmap in Hperm. lia. }
  rewrite take_ge in Hh by exact Hshort.
  exists new. eexists.
  split; [exact Hh|].
  split; [exact Hk|]. split; [done|].
  split.
  - apply Permutation_length in Hperm. simpl in *.
    rewrite !length_fmap in Hperm. lia.
  - rewrite fmap_cons, Hk. by symmetry.
Qed.

(** X7. Saving a meeting that is already in a tidy history, under its
    stored title and email, moves it to the front with a new record and
    evicts nothing: the history keeps its length and its set of keys. *)
Theorem resave_existing_keeps_all
    (ls : LocalStorage) (m : StoredMeeting) (env : Env) :
  tidy (history ls) → m ∈ history ls →
  ∃ ls' m' rest,
    saveMeeting ls (title m) (email m) env = Ok ls' ∧
    getMeetings ls' = Ok (m' :: rest) ∧
    key_of m' = key_of m ∧
    savedAt m' = now_savedAt env ∧
    length (m' :: rest) = length (history ls) ∧
    key_of <$> (m' :: rest) ≡ₚ key_of <$> history ls.
Proof.
  intros Htidy Hin.
  destruct (history_saveMeeting ls (title m) (email m) env) as (ls' & Hs & _ & _).
  destruct (history_resave ls ls' m env Htidy Hin Hs)
    as (m' & rest & Hh & Hk & Hat & Hlen & Hperm).
  exists ls', m', rest.
  split; [exact Hs|].
  split; [rewrite getMeetings_eq; fold (history ls'); by rewrite Hh|].
  done.
Qed.

(** The theorem on the second of eleven saved meetings. *)
Lemma resave_existing_keeps_all_witness :
  ∃ ls ls' l l',
    saveMeetings empty_storage eleven_calls = Ok ls ∧
    getMeetings ls = Ok l ∧
    saveMeeting ls "M02" "a@b.com" (env_at 3000) = Ok ls' ∧
    getMeetings ls' = Ok l' ∧
    length l' = length l ∧ length l = 10%nat ∧
    title <$> take 2 l' = ["M02"; "M11"].
Proof.
  destruct (saveMeetings empty_storage eleven_calls) as [ls|err] eqn:Hs;
    [|by vm_compute in Hs].
  exists ls.
  pose proof Hs as Hs'. vm_compute in Hs'. injection Hs' as Hls.
  assert (tidy (history ls)) as Htidy.
  { rewrite <- Hls. split; [apply (bool_decide_unpack _); vm_compute; exact I|].
    split; [simpl; lia|]. repeat constructor. }
  destruct (resave_existing_keeps_all ls
              (record_of None (call "M02" "a@b.com" 1002)) (env_at 3000) Htidy)
    as (ls' & m' & rest & Hsave & Hget & _ & _ & Hlen & _).
  { subst ls. vm_compute. do 9 right. left. }
  exists ls', (history ls), (m' :: rest).
  split; [reflexivity|]. split; [by rewrite getMeetings_eq|].
  split; [exact Hsave|]. split; [exact Hget|]. split; [exact Hlen|].
  pose proof Hsave as Hsave'. rewrite <- Hls in Hsave'. vm_compute in Hsave'.
  injection Hsave' as Hls'. rewrite <- Hls' in Hget. vm_compute in Hget.
  injection Hget as <- <-.
  split; [by rewrite <- Hls|reflexivity].
Defined.

End HistoryFacts.

(* ===================================================================== *)
(** * More on the forms and on the way from a form to the store           *)
(* ===================================================================== *)

Module FlowFacts.
Import Js Storage Net Text History StorageFacts TextFacts HistoryFacts.

(** ** Email addresses *)

(** What [isValidEmail] accepts is made of three parts. *)
Lemma isValidEmail_parts (s : string) :
  NewMeetingForm.isValidEmail s = true →
  ∃ local domain tld,
    s = local +:+ "@" +:+ domain +:+ "." +:+ tld ∧
    email_part local ∧ email_part domain ∧ email_part tld.
Proof.
  unfold NewMeetingForm.isValidEmail, NewMeetingForm.email_regex,
    NewMeetingForm.not_space_at, email_part.
  rewrite test_anchored_matches. intros H.
  apply matches_seq in H as (a & s1 & -> & Ha & H).
  apply matches_seq in H as (at_ & s2 & -> & Hat & H).
  apply matches_seq in H as (b & s3 & -> & Hb & H).
  apply matches_seq in H as (dot & c & -> & Hdot & Hc).
  apply matches_class in Hat as (x & -> & Hx). apply Ascii.eqb_eq in Hx as <-.
  apply matches_class in Hdot as (y & -> & Hy). apply Ascii.eqb_eq in Hy as <-.
  apply matches_plus_class in Ha, Hb, Hc.
  exists a, b, c. done.
Qed.

(** X8. [isValidEmail] accepts exactly the strings made of a part, [@],
    a part, a dot and a part, where a part is not empty and has neither
    white space nor [@] in it. *)
Theorem isValidEmail_shape (s : string) :
  NewMeetingForm.isValidEmail s = true ↔
  ∃ local domain tld,
    s = local +:+ "@" +:+ domain +:+ "." +:+ tld ∧
    email_part local ∧ email_part domain ∧ email_part tld.
Proof.
  split; [apply isValidEmail_parts|].
  intros (a & b & c & -> & Ha & Hb & Hc).
  unfold NewMeetingForm.isValidEmail, NewMeetingForm.email_regex,
    NewMeetingForm.not_space_at, email_part in *.
  rewrite test_anchored_matches.
  apply matches_plus_class in Ha, Hb, Hc.
  repeat (constructor; try done).
Qed.

Lemma forallb_string_impl (p q : ascii → bool) s :
  (∀ c, p c = true → q c = true) →
  forallb_string p s = true → forallb_string q s = true.
Proof.
  intros Hpq. induction s as [|c s IH]; simpl; [done|].
  intros H. apply andb_true_iff in H as [Hc Hs]. by rewrite (Hpq c Hc), IH.
Qed.

Lemma email_part_no_whitespace s : email_part s → no_whitespace s.
Proof.
  intros [_ H]. unfold no_whitespace. revert H. apply forallb_string_impl.
  intros c Hc. apply negb_true_iff, orb_false_iff in Hc as [Hc _].
  by rewrite Hc.
Qed.

(** An address [isValidEmail] accepts has no white space, so [trim]
    leaves it as it is. *)
Lemma isValidEmail_trimmed s : NewMeetingForm.isValidEmail s = true → trimmed s.
Proof.
  intros H. apply isValidEmail_parts in H as (a & b & c & -> & Ha & Hb & Hc).
  apply no_whitespace_trimmed. unfold no_whitespace.
  apply email_part_no_whitespace in Ha, Hb, Hc. unfold no_whitespace in *.
  rewrite !forallb_string_app, Ha, Hb, Hc. reflexivity.
Qed.

(** ** The new-meeting form *)

Lemma keys_length_0 (e : NewMeetingForm.Errors) :
  Nat.eqb (NewMeetingForm.keys_length e) 0 = true ↔ e = NewMeetingForm.no_errors.
Proof.
  destruct e as [[?|] [?|] [?|] [?|]]; unfold NewMeetingForm.no_errors; simpl;
    split; intros H; try done; discriminate H.
Qed.

(** X9. [validateForm] checks every field on its own and reports every
    field in error: the form is accepted exactly when no error is
    reported, and a field has no error exactly when the title is not
    blank, the link is not blank and passes [isValidUrl], the email is
    not blank and passes [isValidEmail], the password is not blank. *)
Theorem validateForm_reports_every_field
    (URL_ctor : string → Result URL) (fd : NewMeetingForm.MeetingData) :
  let errors := fst (NewMeetingForm.validateForm URL_ctor fd) in
  (snd (NewMeetingForm.validateForm URL_ctor fd) = true ↔
   errors = NewMeetingForm.no_errors) ∧
  (NewMeetingForm.title_error errors = None ↔
   truthy (trim (NewMeetingForm.title fd)) = true) ∧
  (NewMeetingForm.link_error errors = None ↔
   truthy (trim (NewMeetingForm.link fd)) = true ∧
   NewMeetingForm.isValidUrl URL_ctor (NewMeetingForm.link fd) = true) ∧
  (NewMeetingForm.email_error errors = None ↔
   truthy (trim (NewMeetingForm.email fd)) = true ∧
   NewMeetingForm.isValidEmail (NewMeetingForm.email fd) = true) ∧
  (NewMeetingForm.password_error errors = None ↔
   truthy (trim (NewMeetingForm.password fd)) = true).
Proof.
  simpl. split; [apply keys_length_0|].
  destruct (truthy (trim (NewMeetingForm.title fd))),
    (truthy (trim (NewMeetingForm.link fd))),
    (NewMeetingForm.isValidUrl URL_ctor (NewMeetingForm.link fd)),
    (truthy (trim (NewMeetingForm.email fd))),
    (NewMeetingForm.isValidEmail (NewMeetingForm.email fd)),
    (truthy (trim (NewMeetingForm.password fd)));
    simpl; repeat split; intros; destruct_and?; done.
Qed.

Lemma validateForm_accepts URL_ctor fd :
  snd (NewMeetingForm.validateForm URL_ctor fd) = true →
  truthy (trim (NewMeetingForm.title fd)) = true ∧
  NewMeetingForm.isValidEmail (NewMeetingForm.email fd) = true ∧
  fst (NewMeetingForm.validateForm URL_ctor fd) = NewMeetingForm.no_errors.
Proof.
  simpl.
  destruct (truthy (trim (NewMeetingForm.title fd))),
    (truthy (trim (NewMeetingForm.link fd))),
    (NewMeetingForm.isValidUrl URL_ctor (NewMeetingForm.link fd)),
    (truthy (trim (NewMeetingForm.email fd))),
    (NewMeetingForm.isValidEmail (NewMeetingForm.email fd)),
    (truthy (trim (NewMeetingForm.password fd)));
    simpl; intros H; try discriminate H; done.
Qed.

(** X10. A meeting the new-meeting form accepts is stored by
    [handleJoinMeeting] with its email exactly as typed and with a title
    that is trimmed and not empty. *)
Theorem accepted_form_is_stored_as_typed
    (URL_ctor : string → Result URL) (st : App.AppState)
    (fd : NewMeetingForm.MeetingData) (env : Env) (net : FetchOutcome JsonBody) :
  snd (NewMeetingForm.validateForm URL_ctor fd) = true →
  ∃ st' effects m rest,
    App.handleJoinMeeting st fd env net = Ok (st', effects) ∧
    getMeetings (App.localStorage st') = Ok (m :: rest) ∧
    email m = NewMeetingForm.email fd ∧
    title m = trim (NewMeetingForm.title fd) ∧
    title m ≠ "".
Proof.
  intros Hok. apply validateForm_accepts in Hok as (Ht & He & _).
  apply isValidEmail_trimmed in He.
  destruct (AppFacts.handleJoinMeeting_eq st fd env net) as [tail H].
  rewrite H. do 2 eexists.
  rewrite getMeetings_eq. simpl. rewrite push_unfold.
  do 2 eexists. split; [reflexivity|]. split; [reflexivity|]. simpl.
  split; [exact He|]. split; [reflexivity|].
  intros Hempty. by rewrite Hempty in Ht.
Qed.

(** The theorem on the form with a padded title that the join handler
    was run on before. *)
Lemma accepted_form_is_stored_as_typed_witness :
  ∃ st' effects m rest,
    App.handleJoinMeeting App.initial_state App.padded_meeting (env_at 1001) Rejected
      = Ok (st', effects) ∧
    getMeetings (App.localStorage st') = Ok (m :: rest) ∧
    email m = "a@b.com" ∧ title m = "Standup".
Proof.
  destruct (accepted_form_is_stored_as_typed new_URL App.initial_state
              App.padded_meeting (env_at 1001) Rejected)
    as (st' & effects & m & rest & H & Hg & He & Ht & _); [reflexivity|].
  exists st', effects, m, rest. done.
Defined.

(** ** From the forms to [App] *)

(** The join handler does three things: it writes the history, sends the
    request and logs how the request ended. *)
Lemma handleJoinMeeting_trace st d env net :
  ∃ st' last,
    App.handleJoinMeeting st d env net =
      Ok (st', [App.SetItemMeetings (meetgenai_meetings (App.localStorage st'));
                App.Fetch "/api/join_meeting" d; last]) ∧
    saveMeeting (App.localStorage st) (NewMeetingForm.title d) (NewMeetingForm.email d) env
      = Ok (App.localStorage st') ∧
    last = JoinFlow.logged net.
Proof.
  unfold App.handleJoinMeeting. rewrite saveMeeting_eq. simpl.
  destruct net as [|[|] [| |?]]; simpl;
    match goal with
    | |- ∃ st' last, Ok (?s, [_; _; ?l]) = _ ∧ _ => exists s, l
    end; (split; [|split]; reflexivity).
Qed.


(** A valid submission with a meeting selected saves under the title
    of the selection and the email of the form. *)
Lemma submitExisting_valid
    (URL_ctor : string → Result URL) (st : App.AppState)
    (form : ExistingMeetingFormState.State) (selected : StoredMeeting)
    (env : Env) (net_app : FetchOutcome JsonBody) :
  ExistingMeetingFormState.selectedMeeting form = Some selected →
  snd (ExistingMeetingFormState.validateForm URL_ctor
         (ExistingMeetingFormState.formData form)) = true →
  ∃ form' st' trace,
    JoinFlow.submitExisting URL_ctor st form env net_app = Ok (form', st', trace) ∧
    saveMeeting (App.localStorage st) (title selected)
      (ExistingMeetingFormState.email (ExistingMeetingFormState.formData form)) env
      = Ok (App.localStorage st').
Proof.
  intros Hsel Hvalid.
  unfold JoinFlow.submitExisting, ExistingMeetingFormState.handleSubmit.
  rewrite Hsel.
  destruct (ExistingMeetingFormState.validateForm URL_ctor
              (ExistingMeetingFormState.formData form)) as [errors valid].
  simpl in Hvalid. subst valid.
  match goal with
  | |- context [App.handleJoinMeeting st ?d env net_app] =>
      destruct (handleJoinMeeting_trace st d env net_app) as (st' & last & Hrun & Hsave & Hlast);
      rewrite Hrun
  end.
  simpl. do 3 eexists. split; [reflexivity|]. exact Hsave.
Qed.


(** X14. Rejoining a saved meeting through the existing-meeting form
    evicts nothing. From a tidy history, when a saved meeting is
    selected, the link and the password are typed, the email is left as
    the selection filled it in, and the form is valid, the history
    afterwards has the same length and the same keys, with the selected
    key in front. *)
Theorem rejoin_selected_keeps_history
    (URL_ctor : string → Result URL) (st : App.AppState)
    (form : ExistingMeetingFormState.State) (m : StoredMeeting)
    (typed_link typed_password : string) (env : Env) (net_app : FetchOutcome JsonBody) :
  let filled :=
    ExistingMeetingFormState.handleInputChange
      (ExistingMeetingFormState.handleInputChange
         (ExistingMeetingFormState.handleMeetingSelect form m)
         ExistingMeetingFormState.link_field typed_link)
      ExistingMeetingFormState.password_field typed_password in
  tidy (history (App.localStorage st)) →
  m ∈ history (App.localStorage st) →
  snd (ExistingMeetingFormState.validateForm URL_ctor
         (ExistingMeetingFormState.formData filled)) = true →
  ∃ form' st' trace m' rest,
    JoinFlow.submitExisting URL_ctor st filled env net_app = Ok (form', st', trace) ∧
    getMeetings (App.localStorage st') = Ok (m' :: rest) ∧
    key_of m' = key_of m ∧
    length (m' :: rest) = length (history (App.localStorage st)) ∧
    key_of <$> (m' :: rest) ≡ₚ key_of <$> history (App.localStorage st).
Proof.
  intros filled Htidy Hin Hvalid.
  destruct (submitExisting_valid URL_ctor st filled m env net_app eq_refl Hvalid)
    as (form' & st' & trace & Hrun & Hsave).
  change (ExistingMeetingFormState.email (ExistingMeetingFormState.formData filled))
    with (email m) in Hsave.
  destruct (history_resave _ _ m env Htidy Hin Hsave)
    as (m' & rest & Hh & Hk & _ & Hlen & Hperm).
  exists form', st', trace, m', rest.
  split; [exact Hrun|].
  split; [rewrite getMeetings_eq; fold (history (App.localStorage st')); by rewrite Hh|].
  done.
Qed.

Lemma tidy_two_meetings : tidy (history two_meetings).
Proof.
  split; [apply (bool_decide_unpack _); vm_compute; exact I|].
  split; [simpl; lia|].
  repeat constructor.
Qed.

(** The theorem on the older of two saved meetings. *)
Lemma rejoin_selected_keeps_history_witness :
  ∃ form' st' trace l,
    JoinFlow.submitExisting new_URL
      {| App.localStorage := two_meetings; App.currentMeetingTitle := "";
         App.showProcessModal := false |}
      (ExistingMeetingFormState.handleInputChange
         (ExistingMeetingFormState.handleInputChange
            (ExistingMeetingFormState.handleMeetingSelect
               ExistingMeetingFormState.initial
               (record_of None (call "M01" "a@b.com" 1001)))
            ExistingMeetingFormState.link_field "https://zoom.us/j/1")
         ExistingMeetingFormState.password_field "hunter2")
      (env_at 3000) Rejected = Ok (form', st', trace) ∧
    getMeetings (App.localStorage st') = Ok l ∧
    length l = 2%nat.
Proof.
  destruct (rejoin_selected_keeps_history new_URL
              {| App.localStorage := two_meetings; App.currentMeetingTitle := "";
                 App.showProcessModal := false |}
              ExistingMeetingFormState.initial
              (record_of None (call "M01" "a@b.com" 1001))
              "https://zoom.us/j/1" "hunter2" (env_at 3000) Rejected)
    as (form' & st' & trace & m' & rest & Hrun & Hget & _ & Hlen & _).
  - exact tidy_two_meetings.
  - simpl. right. left.
  - reflexivity.
  - exists form', st', trace, (m' :: rest). done.
Defined.

End FlowFacts.

(* ===================================================================== *)
(** * The name modal and the screens of [App]                             *)
(* ===================================================================== *)

Module ShellFacts.
Import Js Storage Net Text StorageFacts TextFacts HistoryFacts.

Lemma truthy_false s : truthy s = false ↔ s = "".
Proof. destruct s; simpl; split; intros H; done || discriminate H. Qed.

Lemma handleInputChange_clears st value :
  NameEntryModal.error (NameEntryModal.handleInputChange st value) = "" ∧
  NameEntryModal.name (NameEntryModal.handleInputChange st value) = value.
Proof.
  unfold NameEntryModal.handleInputChange.
  destruct (NameEntryModal.error st) eqn:He; simpl; by rewrite ?He.
Qed.

(** X15. The name modal calls [onSubmit] exactly when the trimmed name
    has at least two characters, and then with the trimmed name; a blank
    name and a name of one character give the two error messages and no
    call. Typing in the input afterwards clears the error. *)
Theorem NameEntryModal_submits_trimmed_name (st : NameEntryModal.State) :
  let n := trim (NameEntryModal.name st) in
  (snd (NameEntryModal.handleSubmit st) = Some n ↔ (2 ≤ String.length n)%nat) ∧
  (snd (NameEntryModal.handleSubmit st) = None ↔ (String.length n < 2)%nat) ∧
  (n = "" →
   NameEntryModal.error (fst (NameEntryModal.handleSubmit st))
     = "Please enter your full name") ∧
  (String.length n = 1%nat →
   NameEntryModal.error (fst (NameEntryModal.handleSubmit st))
     = "Name must be at least 2 characters long") ∧
  ∀ value, NameEntryModal.error
             (NameEntryModal.handleInputChange
                (fst (NameEntryModal.handleSubmit st)) value) = "".
Proof.
  simpl. unfold NameEntryModal.handleSubmit.
  split; [|split; [|split; [|split]]].
  - destruct (trim (NameEntryModal.name st)) as [|c [|d r]]; simpl;
      split; intros H; try done; try discriminate H; try lia.
  - destruct (trim (NameEntryModal.name st)) as [|c [|d r]]; simpl;
      split; intros H; try done; try discriminate H; try lia.
  - by intros ->.
  - destruct (trim (NameEntryModal.name st)) as [|c [|d r]]; simpl;
      intros H; try done; try discriminate H.
  - intros value. apply handleInputChange_clears.
Qed.

(** X17. The first run. When the name typed into the name modal has at
    least two characters after trimming, [App] stores exactly the
    trimmed name, shows it, closes the modal and goes to the options
    screen; from then on [handleGetStarted] goes to the options screen
    without asking, and after a reload the mount effect shows the same
    name. Otherwise [App] and the store are left as they were. *)
Theorem submitName_first_run (st : AppShell.State) (typed : string) (now : Z) :
  let st' := fst (AppShell.submitName st typed now) in
  if (2 <=? String.length (trim typed))%nat then
    getUser (AppShell.localStorage st')
      = Ok (Some {| name := trim typed; userSavedAt := now |}) ∧
    AppShell.userName st' = trim typed ∧
    AppShell.showNameModal st' = false ∧
    AppShell.currentState st' = AppShell.options ∧
    getMeetings (AppShell.localStorage st') = getMeetings (AppShell.localStorage st) ∧
    (∃ st2, AppShell.handleGetStarted st' = Ok st2 ∧
            AppShell.currentState st2 = AppShell.options ∧
            AppShell.showNameModal st2 = false) ∧
    (∃ st3, AppShell.mountEffect (AppShell.initial (AppShell.localStorage st')) = Ok st3 ∧
            AppShell.userName st3 = trim typed)
  else
    st' = st ∧
    NameEntryModal.error (snd (AppShell.submitName st typed now)) ≠ "".
Proof.
  cbv zeta. destruct (2 <=? String.length (trim typed))%nat eqn:Hlen;
    unfold AppShell.submitName, NameEntryModal.handleSubmit;
    change (NameEntryModal.name
              (NameEntryModal.handleInputChange NameEntryModal.initial typed))
      with typed.
  - apply Nat.leb_le in Hlen.
    assert (truthy (trim typed) = true) as ->
      by (destruct (trim typed); simpl in *; [lia|done]).
    assert ((String.length (trim typed) <? 2)%nat = false) as ->
      by (apply Nat.ltb_ge; lia).
    cbn [negb fst snd].
    unfold AppShell.handleNameSubmit, AppShell.handleGetStarted, AppShell.mountEffect,
      hasUser, saveUser.
    cbn -[trim]. rewrite trim_idemp. repeat split; eauto.
  - apply Nat.leb_gt in Hlen.
    destruct (truthy (trim typed)) eqn:Ht; cbn [negb fst snd]; [|done].
    assert ((String.length (trim typed) <? 2)%nat = true) as ->
      by (apply Nat.ltb_lt; lia).
    done.
Qed.

(** ** The greeting *)

Lemma span_until_app stop s :
  fst (span_until stop s) +:+ snd (span_until stop s) = s.
Proof.
  induction s as [|c s IH]; simpl; [done|].
  destruct (stop c); [done|].
  destruct (span_until stop s) as [a b]. simpl in *.
  by rewrite append_cons, IH.
Qed.

Lemma span_until_prefix stop s :
  forallb_string (λ c, negb (stop c)) (fst (span_until stop s)) = true.
Proof.
  induction s as [|c s IH]; simpl; [done|].
  destruct (stop c) eqn:Hc; [done|].
  destruct (span_until stop s) as [a b]. simpl in *. by rewrite Hc.
Qed.

(** X18. A name the name modal passes to [App] is greeted by its first
    word: the greeting is shown, the word in it is not empty, has no
    space in it and is the beginning of the name. *)
Theorem accepted_name_is_greeted (st : NameEntryModal.State) (n : string) :
  snd (NameEntryModal.handleSubmit st) = Some n →
  ∃ word rest,
    LandingPage.welcome n = Some ("Welcome, " +:+ word) ∧
    LandingPage.ctaLabel n = "Let's Continue" ∧
    word ≠ "" ∧
    n = word +:+ rest ∧
    forallb_string (λ c, negb (Ascii.eqb " " c)) word = true.
Proof.
  intros Hsub.
  assert (n = trim (NameEntryModal.name st) ∧ truthy n = true) as [Hn Htruthy].
  { unfold NameEntryModal.handleSubmit in Hsub.
    destruct (truthy (trim (NameEntryModal.name st))) eqn:Ht; simpl in Hsub;
      [|discriminate].
    destruct (String.length _ <? 2)%nat; simpl in Hsub; [discriminate|].
    injection Hsub as <-. done. }
  exists (LandingPage.firstWord n), (snd (span_until (Ascii.eqb " ") n)).
  unfold LandingPage.welcome, LandingPage.ctaLabel. rewrite Htruthy.
  split; [done|]. split; [done|].
  split; [|split].
  - destruct (trim_head (NameEntryModal.name st)) as [He|(c & r & He & Hc)];
      rewrite <- Hn in He; subst n; [by rewrite He in Htruthy|].
    rewrite He. unfold LandingPage.firstWord.
    destruct (Ascii.eqb " " c) eqn:Hsp.
    + apply Ascii.eqb_eq in Hsp. subst c. discriminate Hc.
    + cbn [span_until]. rewrite Hsp.
      destruct (span_until (Ascii.eqb " ") r). cbn [fst]. intros H. discriminate H.
  - symmetry. apply span_until_app.
  - apply span_until_prefix.
Qed.

(** The theorem on a name typed with spaces around it. *)
Lemma accepted_name_is_greeted_witness :
  snd (NameEntryModal.handleSubmit
         (NameEntryModal.handleInputChange NameEntryModal.initial "  Ada Lovelace "))
    = Some "Ada Lovelace" ∧
  LandingPage.welcome "Ada Lovelace" = Some "Welcome, Ada".
Proof.
  split; [reflexivity|].
  destruct (accepted_name_is_greeted
              (NameEntryModal.handleInputChange NameEntryModal.initial "  Ada Lovelace ")
              "Ada Lovelace") as (word & rest & Hw & _); [reflexivity|].
  reflexivity.
Defined.

End ShellFacts.

(* ===================================================================== *)
(** * More on the polling: invariants of every run                        *)
(* ===================================================================== *)

Module PollingInvariants.
Import Js Net MeetingProcessModal ProcessModalObs PollingFacts.

Lemma on_status_progress h status s :
  progress (on_status h status s) = progressValue status.
Proof.
  revert status. apply status_cases; try done.
  intros status E1 E2 E3 E4.
  unfold on_status, progressValue. by rewrite E1, E2, E3, E4.
Qed.

Lemma progress_of_status status : progress_of (nextStep status) (progressValue status).
Proof.
  revert status. apply status_cases; try done.
  intros status E1 E2 E3 E4.
  unfold nextStep, progressValue. rewrite E1, E2, E3, E4. by right.
Qed.

Lemma step_Props s open s' :
  step s (Props open) = Some s' →
  log s' = log s ∧ inflight s' = inflight s ∧ currentStep s' = currentStep s ∧
  progress s' = progress s ∧ clock s' = clock s ∧
  interval s' = (if open then Some (fresh s, clock s + POLL_INTERVAL_MS) else None) ∧
  fresh s' = (if open then S (fresh s) else fresh s).
Proof. intros [= <-]. unfold run_effect. by destruct open. Qed.

(** ** The stage and the log follow the responses *)

Lemma step_log s ev s' :
  step s ev = Some s' →
  steps_set (log s') = steps_set (log s) ++ (nextStep <$> statuses [ev]) ∧
  completions (log s') = completions (log s) ++ concat (completion_of <$> statuses [ev]) ∧
  currentStep s' = final_step (currentStep s) (statuses [ev]).
Proof.
  destruct ev as [open|dt| |k r]; try (by apply step_polling_log).
  intros H. apply step_Props in H as (-> & _ & -> & _). simpl.
  by rewrite !app_nil_r.
Qed.

(** X19. In every run, with renders, closings and overlapping requests,
    [setCurrentStep] is called once for each response that carries a
    status and [onComplete] once for each response whose status is
    [completed]; the stage shown at the end is the stage of the last
    status received, whatever the stages before it were. *)
Theorem log_follows_responses (s s' : State) (evs : list Event) :
  run s evs = Some s' →
  steps_set (log s') = steps_set (log s) ++ (nextStep <$> statuses evs) ∧
  completions (log s') = completions (log s) ++ concat (completion_of <$> statuses evs) ∧
  currentStep s' = final_step (currentStep s) (statuses evs).
Proof.
  revert s. induction evs as [|ev evs IH]; intros s Hrun.
  - injection Hrun as <-. simpl. by rewrite !app_nil_r.
  - apply run_cons in Hrun as (s1 & Hstep & Hrun).
    destruct (step_log _ _ _ Hstep) as (Hs1 & Hc1 & Hcur1).
    destruct (IH _ Hrun) as (Hs & Hc & Hcur).
    rewrite statuses_cons, !fmap_app, concat_app.
    rewrite Hs, Hc, Hcur, Hs1, Hc1, Hcur1, <- !app_assoc.
    unfold final_step. by rewrite foldl_app.
Qed.

(** The theorem on two overlapping requests that both come back with
    [completed], the second after the modal was closed: [onComplete] is
    called twice. *)
Lemma log_follows_responses_witness :
  ∃ s',
    run (mount 0)
      [Props true; Elapse 10000; TimerFire; Elapse 10000; TimerFire;
       Settle 0 (ok_status "completed"); Props false;
       Settle 0 (ok_status "completed")] = Some s' ∧
    completions (log s') = ["Summary completed!"; "Summary completed!"] ∧
    currentStep s' = completed.
Proof.
  destruct (run (mount 0) _) as [s'|] eqn:Hrun; [|by vm_compute in Hrun].
  exists s'. split; [reflexivity|].
  destruct (log_follows_responses _ _ _ Hrun) as (_ & Hc & Hcur).
  split; [exact Hc|exact Hcur].
Defined.

(** X20. The stage and the progress of every state a mounted modal can
    reach fit together: joining with 0 or 10, joined with 25, ended with
    50, generating with 75, completed with 100. *)
Theorem progress_fits_stage (now : Z) (evs : list Event) (s : State) :
  run (mount now) evs = Some s →
  progress_of (currentStep s) (progress s) ∧ 0 ≤ progress s ≤ 100.
Proof.
  assert (∀ evs s s', progress_of (currentStep s) (progress s) →
            run s evs = Some s' → progress_of (currentStep s') (progress s')) as Hinv.
  { clear. induction evs as [|ev evs IH]; intros s s' Hfit Hrun.
    - by injection Hrun as <-.
    - apply run_cons in Hrun as (s1 & Hstep & Hrun).
      eapply IH; [|exact Hrun].
      destruct ev as [open|dt| |k r].
      + apply step_Props in Hstep as (_ & _ & -> & -> & _). done.
      + apply step_Elapse in Hstep as (_ & _ & _ & _ & -> & -> & _). done.
      + apply step_TimerFire in Hstep as (h & due & _ & _ & _ & _ & _ & -> & -> & _).
        done.
      + apply step_Settle in Hstep as (h & _ & ->). unfold on_settled.
        destruct (Api.getStatus r) as [status|err]; [|done].
        destruct (on_status_fields h status (with_inflight (delete k (inflight s)) s))
          as (-> & _).
        rewrite on_status_progress. apply progress_of_status. }
  intros Hrun.
  assert (progress_of (currentStep s) (progress s)) as Hfit
    by (eapply Hinv; [|exact Hrun]; by left).
  split; [exact Hfit|].
  destruct (currentStep s); simpl in Hfit; lia.
Qed.

(** The theorem on a status the [switch] does not know, after the
    summary was being generated: back to joining, progress 10. *)
Lemma progress_fits_stage_witness :
  ∃ s,
    run (mount 0)
      [Props true; Elapse 10000; TimerFire; Settle 0 (ok_status "summary generation");
       Elapse 10000; TimerFire; Settle 0 (ok_status "Summary Generation")] = Some s ∧
    currentStep s = joining ∧ progress s = 10.
Proof.
  destruct (run (mount 0) _) as [s|] eqn:Hrun; [|by vm_compute in Hrun].
  exists s. split; [reflexivity|].
  destruct (progress_fits_stage 0 _ s Hrun) as [Hfit _].
  vm_compute in Hrun. injection Hrun as <-. done.
Defined.

(** X21. A status that is none of the five literals of the [switch]
    (another text, another spelling, or no text at all) sets the stage
    to joining and the progress to 10 whatever they were, calls nothing
    else, and leaves the interval running as it was. *)
Theorem unrecognised_status_falls_back
    (s s' : State) (k : nat) (r : FetchOutcome JsonBody) (status : option string) :
  Api.getStatus r = Ok status →
  recognised status = false →
  step s (Settle k r) = Some s' →
  currentStep s' = joining ∧
  progress s' = 10 ∧
  log s' = log s ++ [SetCurrentStep joining; SetProgress 10] ∧
  interval s' = interval s.
Proof.
  intros Hr Hrec Hstep. apply step_Settle in Hstep as (h & _ & ->).
  unfold on_settled. rewrite Hr.
  unfold recognised in Hrec.
  repeat (apply orb_false_iff in Hrec as [Hrec ?]).
  unfold on_status.
  repeat match goal with H : status_is _ _ = false |- _ => rewrite H; clear H end.
  simpl. by rewrite <- app_assoc.
Qed.

(** The theorem on a body without a [status] property. *)
Lemma unrecognised_status_falls_back_witness :
  ∃ s s',
    run (mount 0) joined_and_polling = Some s ∧
    currentStep s = joined ∧
    step s (Settle 0 (Response true (BodyObject None))) = Some s' ∧
    currentStep s' = joining ∧ progress s' = 10.
Proof.
  destruct (run (mount 0) joined_and_polling) as [s|] eqn:Hs; [|by vm_compute in Hs].
  destruct (step s (Settle 0 (Response true (BodyObject None)))) as [s'|] eqn:Hs'.
  - exists s, s'. split; [reflexivity|].
    destruct (unrecognised_status_falls_back s s' 0
                (Response true (BodyObject None)) None eq_refl eq_refl Hs')
      as (Hcur & Hpr & _).
    vm_compute in Hs. injection Hs as <-. done.
  - vm_compute in Hs. injection Hs as <-. by vm_compute in Hs'.
Defined.

(** ** The pace of the requests *)

Lemma step_Elapse_due s dt s' h due :
  step s (Elapse dt) = Some s' → interval s = Some (h, due) → clock s + dt ≤ due.
Proof.
  simpl. intros Hstep Hi. rewrite Hi in Hstep. revert Hstep.
  destruct (Z.leb_spec 0 dt); [|done].
  destruct (Z.leb_spec (clock s + dt) due); done.
Qed.

Lemma on_settled_interval h r s x :
  interval (on_settled h r s) = Some x → interval s = Some x.
Proof.
  unfold on_settled. destruct (Api.getStatus r) as [status|err]; [|done].
  rewrite on_status_interval.
  destruct (status_is status "completed"); [|done].
  unfold clearInterval. destruct (interval s) as [[h' due]|] eqn:Hi; [|congruence].
  destruct (h' =? h)%nat; [done|congruence].
Qed.

Lemma on_settled_polls h r s :
  polls_issued (log (on_settled h r s)) = polls_issued (log s) ∧
  clock (on_settled h r s) = clock s ∧
  fresh (on_settled h r s) = fresh s ∧
  inflight (on_settled h r s) = inflight s.
Proof.
  unfold on_settled. destruct (Api.getStatus r) as [status|err].
  - destruct (on_status_log h status s) as (added & -> & _ & _ & Hnone).
    destruct (on_status_fields h status s) as (_ & -> & ->).
    rewrite polls_issued_app, Hnone.
    split; [lia|]. split; [done|]. split; [|done].
    revert status. clear. apply status_cases; try done.
    + unfold on_status, clearInterval. simpl.
      destruct (interval s) as [[h' due]|]; [|done]. by destruct (h' =? h)%nat.
    + intros status E1 E2 E3 E4. unfold on_status. by rewrite E1, E2, E3, E4.
  - simpl. rewrite polls_issued_app.
    change (polls_issued [ConsoleError]) with 0%nat. split; [lia|done].
Qed.

Lemma step_paced t0 p0 s ev s' :
  is_polling ev → step s ev = Some s' → paced t0 p0 s → paced t0 p0 s'.
Proof.
  unfold paced. intros Hpoll Hstep (Hn & Hlow & Hdue).
  destruct ev as [open|dt| |k r]; [done| | |].
  - pose proof (λ h due, step_Elapse_due _ _ _ h due Hstep) as Hfit.
    apply step_Elapse in Hstep as (Hdt & -> & _ & -> & _ & _ & ->).
    split; [done|]. split; [lia|].
    intros h due Hi. destruct (Hdue h due Hi) as [-> _].
    split; [done|]. by eapply Hfit.
  - apply step_TimerFire in Hstep as (h & due & Hi & Hc & -> & _ & -> & _ & _ & ->).
    destruct (Hdue h due Hi) as [Hd _].
    rewrite polls_issued_app. change (polls_issued [GetStatus]) with 1%nat.
    rewrite Nat2Z.inj_add. unfold POLL_INTERVAL_MS in *.
    split; [lia|]. split; [lia|].
    intros h' due' [= <- <-]. lia.
  - apply step_Settle in Hstep as (h & _ & ->).
    destruct (on_settled_polls h r (with_inflight (delete k (inflight s)) s))
      as (-> & -> & _).
    split; [exact Hn|]. split; [exact Hlow|].
    intros h' due' Hi. apply on_settled_interval in Hi. exact (Hdue _ _ Hi).
Qed.

Lemma run_paced t0 p0 s evs s' :
  Forall (λ ev, is_polling ev) evs → run s evs = Some s' →
  paced t0 p0 s → paced t0 p0 s'.
Proof.
  intros Hpoll. revert s. induction Hpoll as [|ev evs Hev Hevs IH]; intros s Hrun Hp.
  - by injection Hrun as <-.
  - apply run_cons in Hrun as (s1 & Hstep & Hrun).
    eapply IH; [exact Hrun|]. by eapply step_paced.
Qed.

(** X23. The modal never polls more often than once per interval. While
    it stays open after being opened at time t, the n-th request is not
    issued before t + n * 10000 ms, and as long as the interval runs the
    n+1-th is issued at t + (n + 1) * 10000 ms at the latest: slow or
    failing responses neither delay nor hasten the requests. *)
Theorem polls_keep_pace (s0 s s' : State) (evs : list Event) :
  step s0 (Props true) = Some s →
  Forall (λ ev, is_polling ev) evs →
  run s evs = Some s' →
  let n := Z.of_nat (polls_issued (log s')) - Z.of_nat (polls_issued (log s)) in
  0 ≤ n ∧
  clock s + POLL_INTERVAL_MS * n ≤ clock s' ∧
  (is_Some (interval s') → clock s' ≤ clock s + POLL_INTERVAL_MS * (n + 1)).
Proof.
  intros Hopen Hpoll Hrun.
  assert (paced (clock s) (Z.of_nat (polls_issued (log s))) s) as Hp.
  { apply step_Props in Hopen as (_ & _ & _ & _ & Hc & Hi & _).
    unfold paced. rewrite Hi, Hc. unfold POLL_INTERVAL_MS.
    split; [lia|]. split; [lia|]. intros h due [= <- <-]. lia. }
  destruct (run_paced _ _ _ _ _ Hpoll Hrun Hp) as (Hn & Hlow & Hdue).
  cbv zeta. split; [exact Hn|]. split; [exact Hlow|].
  intros [[h due] Hi]. destruct (Hdue h due Hi) as [-> Hle]. exact Hle.
Qed.

(** The theorem on a first response that takes 25 seconds: by then the
    second request has gone out, on time. *)
Lemma polls_keep_pace_witness :
  ∃ s s',
    step (mount 0) (Props true) = Some s ∧
    run s slow_first_response = Some s' ∧
    polls_issued (log s') = 2%nat ∧ 20000 ≤ clock s'.
Proof.
  destruct (step (mount 0) (Props true)) as [s|] eqn:Hs; [|done].
  destruct (run s slow_first_response) as [s'|] eqn:Hrun.
  - exists s, s'. split; [reflexivity|]. split; [exact Hrun|].
    destruct (polls_keep_pace (mount 0) s s' slow_first_response Hs)
      as (_ & Hlow & _); [repeat constructor|exact Hrun|].
    vm_compute in Hs. injection Hs as <-.
    vm_compute in Hrun. injection Hrun as <-.
    split; [reflexivity|]. exact Hlow.
  - vm_compute in Hs. injection Hs as <-. by vm_compute in Hrun.
Defined.

(** ** Renders while the modal is open *)

Lemma step_fresh s ev s' :
  is_polling ev → step s ev = Some s' → fresh s' = fresh s.
Proof.
  intros Hpoll Hstep. destruct ev as [open|dt| |k r]; [done| | |].
  - simpl in Hstep. destruct (_ && _); [|done]. by injection Hstep as <-.
  - simpl in Hstep. destruct (interval s) as [[h due]|]; [|done].
    destruct (clock s =? due); [|done]. by injection Hstep as <-.
  - apply step_Settle in Hstep as (h & _ & ->).
    by destruct (on_settled_polls h r (with_inflight (delete k (inflight s)) s))
      as (_ & _ & -> & _).
Qed.

Lemma step_handles_issued s ev s' :
  step s ev = Some s' → handles_issued s → handles_issued s'.
Proof.
  unfold handles_issued. intros Hstep [Hin Hi]. destruct ev as [open|dt| |k r].
  - apply step_Props in Hstep as (_ & -> & _ & _ & _ & -> & ->).
    destruct open.
    + split; [eapply Forall_impl; [exact Hin|]; simpl; lia|].
      intros h due [= <- _]. lia.
    + done.
  - rewrite (step_fresh s (Elapse dt) s' I Hstep).
    apply step_Elapse in Hstep as (_ & _ & -> & -> & _). done.
  - rewrite (step_fresh s TimerFire s' I Hstep).
    apply step_TimerFire in Hstep as (h & due & Hint & _ & _ & -> & -> & _).
    split; [|by intros h' due' [= <- _]; eapply Hi].
    apply Forall_app. split; [done|]. constructor; [by eapply Hi|done].
  - rewrite (step_fresh s (Settle k r) s' I Hstep).
    apply step_Settle in Hstep as (h & _ & ->).
    destruct (on_settled_polls h r (with_inflight (delete k (inflight s)) s))
      as (_ & _ & _ & ->).
    split; [by apply Forall_delete|].
    intros h' due' Hint. apply on_settled_interval in Hint. by eapply Hi.
Qed.

Lemma run_handles_issued s evs s' :
  run s evs = Some s' → handles_issued s → handles_issued s'.
Proof.
  revert s. induction evs as [|ev evs IH]; intros s Hrun Hh.
  - by injection Hrun as <-.
  - apply run_cons in Hrun as (s1 & Hstep & Hrun).
    eapply IH; [exact Hrun|]. by eapply step_handles_issued.
Qed.

(** X24. A render of the parent that changes [onComplete] while the modal
    is open starts a new interval, and the requests that were in flight
    belong to the old one. When one of them comes back, also with
    [completed], its [clearInterval] misses the new interval: the new
    interval keeps running and goes on polling, although [onComplete] is
    called. *)
Theorem stale_response_keeps_new_interval
    (now : Z) (evs : list Event) (s s1 s2 : State) (k : nat)
    (r : FetchOutcome JsonBody) :
  run (mount now) evs = Some s →
  step s (Props true) = Some s1 →
  step s1 (Settle k r) = Some s2 →
  interval s2 = interval s1 ∧
  is_Some (interval s2) ∧
  (Api.getStatus r = Ok (Some "completed") →
   completions (log s2) = completions (log s1) ++ ["Summary completed!"] ∧
   ∃ s3, run s2 [Elapse (clock s + POLL_INTERVAL_MS - clock s2); TimerFire] = Some s3 ∧
         polls_issued (log s3) = S (polls_issued (log s2))).
Proof.
  intros Hrun Hopen Hsettle.
  assert (handles_issued s) as [Hin _].
  { eapply run_handles_issued; [exact Hrun|]. split; [constructor|done]. }
  apply step_Props in Hopen as (Hlog & Hinfl & _ & _ & Hclock & Hint & _).
  pose proof Hsettle as Hsettle'.
  apply step_Settle in Hsettle as (h & Hk & ->).
  rewrite Hinfl in Hk.
  assert (h < fresh s)%nat as Hlt by exact (Forall_lookup_1 _ _ _ _ Hin Hk).
  assert (interval (on_settled h r (with_inflight (delete k (inflight s1)) s1))
          = interval s1) as Hsame.
  { unfold on_settled. destruct (Api.getStatus r) as [status|err]; [|done].
    rewrite on_status_interval. destruct (status_is status "completed"); [|done].
    unfold clearInterval. simpl. rewrite Hint.
    destruct (Nat.eqb_spec (fresh s) h); [lia|done]. }
  split; [exact Hsame|]. split; [rewrite Hsame, Hint; eauto|].
  intros Hr.
  destruct (step_log _ _ _ Hsettle') as (_ & Hc & _).
  simpl in Hc. rewrite Hr in Hc. split; [exact Hc|].
  set (s2 := on_settled h r (with_inflight (delete k (inflight s1)) s1)) in *.
  assert (clock s2 = clock s) as Hclock2.
  { unfold s2.
    destruct (on_settled_polls h r (with_inflight (delete k (inflight s1)) s1))
      as (_ & -> & _). exact Hclock. }
  destruct (next_tick s2 (fresh s) (clock s + POLL_INTERVAL_MS))
    as (s3 & Hrun3 & _ & _ & Hlog3).
  - by rewrite Hsame.
  - rewrite Hclock2. unfold POLL_INTERVAL_MS. lia.
  - exists s3. split; [exact Hrun3|].
    rewrite Hlog3, polls_issued_app. change (polls_issued [GetStatus]) with 1%nat. lia.
Qed.

(** The theorem on a render two seconds after the second request went
    out: its response says [completed], and the modal polls again. *)
Lemma stale_response_keeps_new_interval_witness :
  ∃ s s1 s2 s3,
    run (mount 0) (joined_and_polling ++ [Elapse 2000]) = Some s ∧
    step s (Props true) = Some s1 ∧
    step s1 (Settle 0 (ok_status "completed")) = Some s2 ∧
    currentStep s2 = completed ∧
    completions (log s2) = ["Summary completed!"] ∧
    is_Some (interval s2) ∧
    run s2 [Elapse 10000; TimerFire] = Some s3 ∧
    polls_issued (log s3) = 3%nat.
Proof.
  destruct (run (mount 0) (joined_and_polling ++ [Elapse 2000])) as [s|] eqn:Hs;
    [|by vm_compute in Hs].
  destruct (step s (Props true)) as [s1|] eqn:Hs1; [|done].
  destruct (step s1 (Settle 0 (ok_status "completed"))) as [s2|] eqn:Hs2.
  - destruct (stale_response_keeps_new_interval 0 _ s s1 s2 0 _ Hs Hs1 Hs2)
      as (_ & Hrunning & Hdone).
    destruct (Hdone eq_refl) as (Hc & s3 & Hrun3 & Hp3).
    exists s, s1, s2, s3.
    split; [reflexivity|]. split; [exact Hs1|]. split; [exact Hs2|].
    vm_compute in Hs. injection Hs as <-.
    vm_compute in Hs1. injection Hs1 as <-.
    vm_compute in Hs2. injection Hs2 as <-.
    split; [reflexivity|]. split; [exact Hc|]. split; [exact Hrunning|].
    split; [exact Hrun3|exact Hp3].
  - vm_compute in Hs. injection Hs as <-.
    vm_compute in Hs1. injection Hs1 as <-. by vm_compute in Hs2.
Defined.

(** X25. A render of the parent that changes [onComplete] while the modal
    is open restarts the wait of ten seconds. When the parent renders
    again and again less than ten seconds apart, the modal never issues
    a request, however long it stays open. *)
Theorem rerenders_starve_polling (s0 s : State) (waits : list Z) :
  step s0 (Props true) = Some s →
  Forall (λ dt, 0 ≤ dt < POLL_INTERVAL_MS) waits →
  ∃ s',
    run s (rerenders waits) = Some s' ∧
    log s' = log s ∧
    clock s' = clock s + foldr Z.add 0 waits ∧
    interval s' = Some ((fresh s' - 1)%nat, clock s' + POLL_INTERVAL_MS) ∧
    ∀ dt, 0 ≤ dt < POLL_INTERVAL_MS → run s' [Elapse dt; TimerFire] = None.
Proof.
  intros Hopen Hwaits.
  assert (∃ h, interval s = Some (h, clock s + POLL_INTERVAL_MS) ∧ h = (fresh s - 1)%nat)
    as Harmed.
  { apply step_Props in Hopen as (_ & _ & _ & _ & -> & -> & ->).
    eexists. split; [reflexivity|]. lia. }
  clear Hopen. revert s Harmed.
  induction Hwaits as [|dt waits Hdt Hwaits IH]; intros s (h & Hi & Hh).
  - exists s. split; [done|]. split; [done|]. split; [simpl; lia|].
    split; [by rewrite Hi, Hh|].
    intros dt Hdt. simpl. rewrite Hi.
    destruct (Z.leb_spec 0 dt); [|lia].
    destruct (Z.leb_spec (clock s + dt) (clock s + POLL_INTERVAL_MS)); [|lia].
    simpl. destruct (Z.eqb_spec (clock s + dt) (clock s + POLL_INTERVAL_MS)); [lia|done].
  - unfold rerenders. simpl. rewrite Hi.
    destruct (Z.leb_spec 0 dt); [|lia].
    destruct (Z.leb_spec (clock s + dt) (clock s + POLL_INTERVAL_MS)); [|lia].
    simpl.
    match goal with
    | |- ∃ s', run ?s1 _ = Some s' ∧ _ => destruct (IH s1) as (s' & Hrun & Hl & Hc & Hrest)
    end.
    + eexists. simpl. split; [reflexivity|]. lia.
    + exists s'. split; [exact Hrun|]. split; [by rewrite Hl|].
      split; [rewrite Hc; simpl; lia|exact Hrest].
Qed.

(** The theorem on a parent that renders every nine seconds for half a
    minute. *)
Lemma rerenders_starve_polling_witness :
  ∃ s s',
    step (mount 0) (Props true) = Some s ∧
    run s (rerenders [9000; 9000; 9000; 9000]) = Some s' ∧
    clock s' = 36000 ∧ polls_issued (log s') = 0%nat.
Proof.
  destruct (step (mount 0) (Props true)) as [s|] eqn:Hs; [|done].
  destruct (rerenders_starve_polling (mount 0) s [9000; 9000; 9000; 9000] Hs)
    as (s' & Hrun & Hlog & Hclock & _).
  - repeat constructor; unfold POLL_INTERVAL_MS; lia.
  - exists s, s'. split; [reflexivity|]. split; [exact Hrun|].
    rewrite Hlog, Hclock. vm_compute in Hs. injection Hs as <-. done.
Defined.

End PollingInvariants.

(* ===================================================================== *)
(** * The store at run time: JSON of any shape                            *)
(* ===================================================================== *)

Module RawStorageFacts.
Import Js RawStorage.

Lemma raw_getMeetings_eq ls :
  getMeetings ls =
    Ok (match meetgenai_meetings ls with
        | Some (JsonText parsed) => parsed
        | Some Malformed | Some EmptyText | None => JArray []
        end).
Proof. unfold getMeetings. by destruct (meetgenai_meetings ls) as [[| |v]|]. Qed.

Lemma raw_getUser_eq ls :
  getUser ls =
    Ok (match meetgenai_user ls with
        | Some (JsonText parsed) => parsed
        | Some Malformed | Some EmptyText | None => JNull
        end).
Proof. unfold getUser. by destruct (meetgenai_user ls) as [[| |v]|]. Qed.

Lemma user_name_returns user : ∃ n, user_name user = Ok n.
Proof. destruct user; simpl; eauto. Qed.

Lemma keeps_not_null t e v :
  is_null v = false → keeps t e v = Ok (kept_by t e v).
Proof.
  intros Hv. unfold kept_by, keeps.
  destruct v as [| | | | |props]; try done; simpl.
  by destruct (strict_equals (own_property "title" props) t).
Qed.

Lemma keeps_null t e v : is_null v = true → keeps t e v = Throw TypeError.
Proof. by destruct v. Qed.

Lemma filter_items_kept t e items :
  forallb (λ v, negb (is_null v)) items = true →
  filter_items (keeps t e) items = Ok (filter (λ v, kept_by t e v = true) items).
Proof.
  induction items as [|v items IH]; simpl; [done|].
  intros H. apply andb_true_iff in H as [Hv Hitems].
  apply negb_true_iff in Hv.
  rewrite (keeps_not_null _ _ _ Hv), (IH Hitems). simpl.
  rewrite filter_cons. by destruct (kept_by t e v).
Qed.

Lemma filter_items_null t e items :
  forallb (λ v, negb (is_null v)) items = false →
  filter_items (keeps t e) items = Throw TypeError.
Proof.
  induction items as [|v items IH]; simpl; [done|].
  intros H. apply andb_false_iff in H as [Hv|Hitems].
  - apply negb_false_iff in Hv. by rewrite (keeps_null _ _ _ Hv).
  - destruct (is_null v) eqn:Hv.
    + by rewrite (keeps_null _ _ _ Hv).
    + rewrite (keeps_not_null _ _ _ Hv), (IH Hitems). done.
Qed.

(** [saveMeeting] in one piece. *)
Lemma raw_saveMeeting_eq ls t e env :
  ∃ n, user_name (match meetgenai_user ls with
                  | Some (JsonText parsed) => parsed
                  | Some Malformed | Some EmptyText | None => JNull
                  end) = Ok n ∧
  saveMeeting ls t e env =
    match history_items ls with
    | Some old =>
        Ok (setItem_meetings ls
              (JsonText (JArray (take 10 (new_record t e env n ::
                 filter (λ v, kept_by (trim t) (trim e) v = true) old)))))
    | None => Throw TypeError
    end.
Proof.
  destruct (user_name_returns
              (match meetgenai_user ls with
               | Some (JsonText parsed) => parsed
               | Some Malformed | Some EmptyText | None => JNull
               end)) as [n Hn].
  exists n. split; [exact Hn|].
  unfold saveMeeting. rewrite raw_getMeetings_eq, raw_getUser_eq. simpl.
  rewrite Hn. simpl. unfold history_items.
  destruct (meetgenai_meetings ls) as [[| |[| | | |items|]]|]; try done.
  simpl. destruct (forallb _ items) eqn:Hitems.
  - by rewrite (filter_items_kept _ _ _ Hitems).
  - by rewrite (filter_items_null _ _ _ Hitems).
Qed.

(** ** The history key *)

(** C8, as the code has it. Whatever text the store holds under the
    meetings key, [getMeetings] returns and does not throw. When the
    text parses, it returns the parsed value as it is: the persisted
    list when the text is the JSON text of a list, and also a value
    that is no list, since nothing checks what [JSON.parse] returns.
    When the key is not set, or holds the empty string or a text that
    is not JSON, it returns the empty list. *)
Theorem getMeetings_returns_what_parses (ls : LocalStorage) :
  ∃ v,
    getMeetings ls = Ok v ∧
    match meetgenai_meetings ls with
    | Some (JsonText parsed) => v = parsed
    | Some Malformed | Some EmptyText | None => v = JArray []
    end.
Proof.
  rewrite raw_getMeetings_eq. eexists. split; [reflexivity|].
  by destruct (meetgenai_meetings ls) as [[| |parsed]|].
Qed.

(** C8 as it is stated fails on a payload that parses to a value that is
    no list: for the stored texts [null] and [{}], [getMeetings] returns
    [null] and the empty object, neither a persisted list nor an empty
    sequence. *)
Lemma getMeetings_returns_null :
  getMeetings null_history = Ok JNull ∧
  getMeetings object_history = Ok (JObject []) ∧
  (∀ items, JNull ≠ JArray items) ∧
  (∀ items, JObject [] ≠ JArray items).
Proof. repeat split; intros; discriminate. Qed.

(** ** What a save needs and what it keeps *)


Lemma new_record_title t e env n :
  get (new_record t e env n) "title" = Ok (Some (JString (trim t))) ∧
  get (new_record t e env n) "email" = Ok (Some (JString (trim e))) ∧
  is_null (new_record t e env n) = false.
Proof. done. Qed.






(** ** The user key *)

(** X16. [handleGetStarted] never throws. It asks for a name exactly when
    [getUser] returns [null]: when the user key is missing, empty or not
    JSON, and also when it holds the text [null]. For a stored text of
    any other JSON value, an object or not, it goes to the options
    screen. *)
Theorem handleGetStarted_asks_unknown_user
    (ls : LocalStorage) (st : AppShell.State) :
  ∃ st',
    handleGetStarted ls st = Ok st' ∧
    match meetgenai_user ls with
    | Some (JsonText JNull) | Some Malformed | Some EmptyText | None =>
        AppShell.showNameModal st' = true ∧
        AppShell.currentState st' = AppShell.currentState st
    | Some (JsonText _) =>
        AppShell.currentState st' = AppShell.options ∧
        AppShell.showNameModal st' = AppShell.showNameModal st
    end.
Proof.
  unfold handleGetStarted, hasUser. rewrite raw_getUser_eq.
  destruct (meetgenai_user ls) as [[| |[]]|]; simpl; eauto.
Qed.

(** ** The typed store is the store at run time *)

Lemma kept_by_of_meeting t e m :
  kept_by t e (of_meeting m) =
    negb (String.eqb (Storage.title m) t && String.eqb (Storage.email m) e).
Proof.
  unfold kept_by, keeps, of_meeting. simpl.
  destruct (String.eqb (Storage.title m) t); simpl; [|done].
  by destruct (String.eqb (Storage.email m) e).
Qed.

Lemma kept_by_same_key m new :
  kept_by (Storage.title new) (Storage.email new) (of_meeting m) = true ↔
  ¬ Storage.same_key m new.
Proof.
  rewrite kept_by_of_meeting. unfold Storage.same_key.
  destruct (String.eqb_spec (Storage.title m) (Storage.title new)) as [Ht|Ht];
    destruct (String.eqb_spec (Storage.email m) (Storage.email new)) as [He|He];
    simpl; split; try done; intros H; try (by intros [? ?]).
  by destruct H.
Qed.

Lemma filter_of_meeting new (l : list Storage.StoredMeeting) :
  filter (λ v, kept_by (Storage.title new) (Storage.email new) v = true)
    (of_meeting <$> l)
  = of_meeting <$> filter (λ m, ¬ Storage.same_key m new) l.
Proof.
  induction l as [|m l IH]; [done|].
  rewrite fmap_cons, !filter_cons, IH.
  destruct (decide (¬ Storage.same_key m new)) as [Hk|Hk].
  - rewrite decide_True by (by apply kept_by_same_key). done.
  - rewrite decide_False by (by rewrite kept_by_same_key). done.
Qed.

Lemma history_items_of_storage ls :
  history_items (of_storage ls) =
    Some (of_meeting <$> Storage.stored_list (Storage.meetgenai_meetings ls)).
Proof.
  unfold history_items, of_storage. simpl.
  destruct (Storage.meetgenai_meetings ls) as [[| |l]|]; simpl; try done.
  assert (forallb (λ v, negb (is_null v)) (of_meeting <$> l) = true) as ->; [|done].
  induction l as [|m l IH]; [done|]. simpl. exact IH.
Qed.

(** X26. On a store that holds what the program itself writes (under each
    key nothing, the empty string, a text that is not JSON, or the JSON
    text of a value of the declared type), the functions at run time do
    what the typed functions do: the readers return the same user and
    the same list, the writers leave the same store, and none of them
    throws where the typed one returns. *)
Theorem typed_store_at_run_time
    (ls : Storage.LocalStorage) (t e n : string) (env : Storage.Env) (now : Z)
    (st : AppShell.State) :
  (∃ l, Storage.getMeetings ls = Ok l ∧
        getMeetings (of_storage ls) = Ok (JArray (of_meeting <$> l))) ∧
  (∃ u, Storage.getUser ls = Ok u ∧
        getUser (of_storage ls) = Ok (from_option of_user JNull u)) ∧
  hasUser (of_storage ls) = Storage.hasUser ls ∧
  saveUser (of_storage ls) n now = of_storage (Storage.saveUser ls n now) ∧
  clearUser (of_storage ls) = of_storage (Storage.clearUser ls) ∧
  (∃ ls', Storage.saveMeeting ls t e env = Ok ls' ∧
          saveMeeting (of_storage ls) t e env = Ok (of_storage ls')) ∧
  match ExistingMeetingForm.loadSavedMeetings ls with
  | Ok l => loadSavedMeetings (of_storage ls) = Ok (JArray (of_meeting <$> l))
  | Throw err => loadSavedMeetings (of_storage ls) = Throw err
  end ∧
  handleGetStarted (of_storage (AppShell.localStorage st)) st
    = AppShell.handleGetStarted st.
Proof.
  split; [|split; [|split; [|split; [|split; [|split; [|split]]]]]].
  - rewrite StorageFacts.getMeetings_eq, raw_getMeetings_eq. eexists.
    split; [reflexivity|]. unfold of_storage. simpl.
    by destruct (Storage.meetgenai_meetings ls) as [[| |l]|].
  - rewrite StorageFacts.getUser_eq, raw_getUser_eq. eexists.
    split; [reflexivity|]. unfold of_storage. simpl.
    by destruct (Storage.meetgenai_user ls) as [[| |u]|].
  - unfold hasUser, Storage.hasUser.
    rewrite StorageFacts.getUser_eq, raw_getUser_eq. unfold of_storage. simpl.
    by destruct (Storage.meetgenai_user ls) as [[| |u]|].
  - done.
  - done.
  - rewrite StorageFacts.saveMeeting_eq. eexists. split; [reflexivity|].
    destruct (raw_saveMeeting_eq (of_storage ls) t e env) as (n' & Hn & ->).
    rewrite history_items_of_storage.
    set (r := Storage.record_of _ _).
    assert (new_record t e env n' = of_meeting r) as ->.
    { unfold r, of_storage in *. simpl in Hn.
      destruct (Storage.meetgenai_user ls) as [[| |u]|]; simpl in Hn;
        by injection Hn as <-. }
    change (trim t) with (Storage.title r). change (trim e) with (Storage.email r).
    rewrite filter_of_meeting. unfold Storage.push, of_storage, setItem_meetings.
    simpl. by rewrite fmap_take.
  - unfold loadSavedMeetings, ExistingMeetingForm.loadSavedMeetings, of_storage. simpl.
    by destruct (Storage.meetgenai_meetings ls) as [[| |l]|].
  - unfold handleGetStarted, AppShell.handleGetStarted, hasUser, Storage.hasUser.
    rewrite StorageFacts.getUser_eq, raw_getUser_eq. unfold of_storage. simpl.
    by destruct (Storage.meetgenai_user (AppShell.localStorage st)) as [[| |u]|].
Qed.

End RawStorageFacts.
